(** * Orders service: idempotent order creation and event emission

    A shallow embedding of the order-creation path of the service:
    the request model and its binding tags, the repository's four SQL
    statements over the two tables, the service's [CreateOrder], the HTTP
    handler in front of it and the event worker behind it.

    Conventions.
    - One module per Go package; records keep the Go field names.
    - A [World] holds what a request can change: the two tables, the
      event channel and the log.  Go functions become state-passing
      functions over it.
    - What a call reads from outside the program (clocks, the random
      UUID, whether a driver call fails, whether the context is already
      cancelled, which ready case a [select] picks) is an explicit
      argument; a request gets them bundled in [service.Env].
    - [encoding/json] is an interface ([JSON]); the one law used about it
      is the documented round trip ([JSONLaws]). *)

From Stdlib Require Import ZArith Lia Ascii PrimFloat.
From Stdlib Require Uint63.
From stdpp Require Import base option list gmap strings.

(** ** Go values *)

(** [error]: the sentinels the code compares against, plus every other
    error value (driver, context, codec), told apart by its message. *)
Inductive error : Type :=
  | sql_ErrNoRows
  | ErrOrderNotFound
  | ErrIdempotencyNotFound
  | ErrOther (msg : string).

#[global] Instance error_eq_dec : EqDecision error.
Proof. solve_decision. Defined.

Definition Error (e : error) : string :=
  match e with
  | sql_ErrNoRows => "sql: no rows in result set"
  | ErrOrderNotFound => "order not found"
  | ErrIdempotencyNotFound => "idempotency record not found"
  | ErrOther msg => msg
  end.

(** A Go call returns, or parks its goroutine for good, or panics. *)
Inductive outcome (A : Type) : Type :=
  | Returns (a : A)
  | Blocks
  | Panics.
Arguments Returns {A} a.
Arguments Blocks {A}.
Arguments Panics {A}.

(** [float64] is IEEE binary64, as Rocq's primitive floats. *)
Abbreviation float64 := PrimFloat.float.

Module time.
(** A [time.Time] is the instant it denotes, in nanoseconds since the
    zero time (January 1, year 1, 00:00:00 UTC); the monotonic reading
    and the location name are not observable in this program. *)
Definition Time : Type := Z.
Definition Duration : Type := Z.

Definition Nanosecond : Duration := 1%Z.
Definition Second : Duration := (1000000000 * Nanosecond)%Z.
Definition Minute : Duration := (60 * Second)%Z.

Definition zero : Time := 0%Z.
Definition IsZero (t : Time) : bool := (t =? 0)%Z.
Definition Add (t : Time) (d : Duration) : Time := (t + d)%Z.

(** seconds from the zero time to the Unix epoch *)
Definition unixToInternal : Z := 62135596800%Z.
Definition Unix (t : Time) : Z := (t / Second - unixToInternal)%Z.
End time.

Module uuid.
(** [type UUID [16]byte], read as a big-endian number below 2^128. *)
Definition UUID : Type := N.

Definition hexdigit (n : N) : ascii :=
  match n with
  | 0%N => "0" | 1%N => "1" | 2%N => "2" | 3%N => "3"
  | 4%N => "4" | 5%N => "5" | 6%N => "6" | 7%N => "7"
  | 8%N => "8" | 9%N => "9" | 10%N => "a" | 11%N => "b"
  | 12%N => "c" | 13%N => "d" | 14%N => "e" | _ => "f"
  end%char.

(** the [len] hex digits of [u] that end [skip] nibbles from the right *)
Fixpoint hex (len : nat) (skip : N) (u : N) : string :=
  match len with
  | O => EmptyString
  | S len' =>
      String (hexdigit (N.modulo (N.shiftr u (4 * (skip + N.of_nat len'))) 16))
             (hex len' skip u)
  end.

(** xxxxxxxx-xxxx-xxxx-xxxx-xxxxxxxxxxxx *)
Definition String_ (u : UUID) : string :=
  hex 8 24 u +:+ "-" +:+ hex 4 20 u +:+ "-" +:+ hex 4 16 u +:+ "-"
    +:+ hex 4 12 u +:+ "-" +:+ hex 12 0 u.
End uuid.

(** ** package models *)

Module Order.
Record t : Type := mk {
  ID : string;
  CustomerID : string;
  ProductID : string;
  Quantity : Z;
  TotalPrice : float64;
  Status : string;
  OrderTime : time.Time;
  CreatedAt : time.Time;
  UpdatedAt : time.Time;
}.
End Order.

Module CreateOrderRequest.
Record t : Type := mk {
  CustomerID : string;
  ProductID : string;
  Quantity : Z;
  TotalPrice : float64;
  OrderTime : time.Time;
  IdempotencyKey : string;
}.

(** The zero value: what decoding leaves in a field the body lacks. *)
Definition zero : t :=
  mk EmptyString EmptyString 0%Z 0%float time.zero EmptyString.
End CreateOrderRequest.

(** ** package events: the event *)

Module OrderCreatedEvent.
Record t : Type := mk {
  OrderID : string;
  CustomerID : string;
  ProductID : string;
  Quantity : Z;
  TotalPrice : float64;
  Timestamp : Z;
}.
End OrderCreatedEvent.

(** ** encoding/json, as far as the program uses it *)

Class JSON : Type := {
  (** a JSON document: a request body, or a [response] column value *)
  Bytes : Type;
  (** [json.Marshal(order)] *)
  Marshal : Order.t → Bytes + error;
  (** [json.Unmarshal(data, &order)] *)
  Unmarshal : Bytes → Order.t + error;
  (** the decoding half of [c.ShouldBindJSON(&req)] *)
  Decode : Bytes → CreateOrderRequest.t + error;
}.

(** What [Marshal] wrote, [Unmarshal] reads back. *)
Class JSONLaws (J : JSON) : Prop := {
  Unmarshal_Marshal :
    ∀ (o : Order.t) (b : Bytes), Marshal o = inl b → Unmarshal b = inl o;
}.

(** ** go.uber.org/zap: the log as a list of entries *)

Module zap.
Inductive Level : Type := InfoLevel | WarnLevel | ErrorLevel.

Inductive Field : Type :=
  | String_ (key val : string)
  | Int (key : string) (val : Z)
  | Float64 (key : string) (val : float64)
  | Error (err : error).

Record Entry : Type := mk {
  level : Level;
  message : string;
  fields : list Field;
}.
End zap.

(** ** Channels and [select] *)

Module channel.
(** A channel of capacity [cap]: the buffered values in arrival
    order, and whether a receiver is parked on it.  A send to a parked
    receiver hands the value over at once; it is recorded as the
    single element of [buf], which the receiver then takes. *)
Record chan (A : Type) : Type := mk {
  buf : list A;
  cap : nat;
  recvq : bool;
}.
Arguments mk {A} buf cap recvq.
Arguments buf {A} c.
Arguments cap {A} c.
Arguments recvq {A} c.

Definition make {A : Type} (size : nat) : chan A := mk [] size false.

(** a send can proceed without parking *)
Definition can_send {A : Type} (c : chan A) : bool :=
  recvq c || bool_decide (length (buf c) < cap c).

Definition send {A : Type} (a : A) (c : chan A) : chan A :=
  mk (buf c ++ [a]) (cap c) false.

(** a receive can proceed without parking *)
Definition can_recv {A : Type} (c : chan A) : bool :=
  match buf c with [] => false | _ :: _ => true end.

Definition recv {A : Type} (c : chan A) : option (A * chan A) :=
  match buf c with
  | [] => None
  | a :: rest => Some (a, mk rest (cap c) false)
  end.

Definition park {A : Type} (c : chan A) : chan A :=
  mk (buf c) (cap c) true.

(** The [select] statement over communication cases [ready] (those
    that can proceed, in source order): one of them is taken, chosen
    by [pick]; with none ready the [default] case is taken, and
    without a default case the statement blocks. *)
Definition select {C : Type} (ready : list C) (default : option C)
    (pick : nat) : option C :=
  match ready with
  | [] => default
  | _ :: _ => ready !! (pick mod length ready)%nat
  end.
End channel.

(** ** The database: two tables (migration V1)

    A row holds the values its INSERT was given; the rounding of the
    column types (DECIMAL(10, 2), microsecond timestamps) is left out.
    A [TIMESTAMP] is the instant the program wrote, and [NOW()] an
    instant of the database's clock on the same time line. *)

(** key of [idempotency_keys]: (endpoint_name, endpoint_scheme, key) *)
Abbreviation IdempotencyKey := (string * string * string)%type.

Section Tables.
Context {J : JSON}.

(** the other columns of an [idempotency_keys] row *)
Record IdempotencyRow : Type := mkIdempotencyRow {
  response : Bytes;
  valid_to : time.Time;
  created_at : time.Time;
}.

Record Database : Type := mkDatabase {
  orders : gmap string Order.t;
  idempotency_keys : gmap IdempotencyKey IdempotencyRow;
}.

Record World : Type := mkWorld {
  db : Database;
  eventChan : channel.chan OrderCreatedEvent.t;
  log : list zap.Entry;
}.

(** State-passing: a Go function that may touch the world. *)
Definition M (A : Type) : Type := World → A * World.

Definition ret {A : Type} (a : A) : M A := λ w, (a, w).
Definition bind {A B : Type} (m : M A) (k : A → M B) : M B :=
  λ w, let (a, w') := m w in k a w'.

Definition getDB : M Database := λ w, (db w, w).
Definition putDB (d : Database) : M unit :=
  λ w, (tt, mkWorld d (eventChan w) (log w)).
Definition getChan : M (channel.chan OrderCreatedEvent.t) :=
  λ w, (eventChan w, w).
Definition putChan (c : channel.chan OrderCreatedEvent.t) : M unit :=
  λ w, (tt, mkWorld (db w) c (log w)).

Definition logger (lvl : zap.Level) (msg : string) (fs : list zap.Field)
  : M unit :=
  λ w, (tt, mkWorld (db w) (eventChan w) (log w ++ [zap.mk lvl msg fs])).
End Tables.

Notation "x <- c1 ;; c2" := (bind c1 (λ x, c2))
  (at level 100, c1 at next level, right associativity).
Notation "c1 ;;; c2" := (bind c1 (λ _, c2))
  (at level 100, right associativity).

(** ** database/sql over PostgreSQL: the repository's statements

    [failure] is the outcome of the driver call when it does not reach
    the table: a lost connection, a cancelled or expired context, a
    value the column type refuses.  The primary keys are checked here. *)

Module sql.
Section sql.
Context {J : JSON}.

Definition duplicate_key : error :=
  ErrOther "pq: duplicate key value violates unique constraint".

(** [INSERT INTO orders (id, ...) VALUES ($1, ...)] *)
Definition InsertOrder (failure : option error) (row : Order.t)
    (d : Database) : option error * Database :=
  match failure with
  | Some e => (Some e, d)
  | None =>
      match orders d !! Order.ID row with
      | Some _ => (Some duplicate_key, d)
      | None =>
          (None, mkDatabase (<[Order.ID row := row]> (orders d))
                            (idempotency_keys d))
      end
  end.

(** [SELECT ... FROM orders WHERE id = $1], scanned into an Order *)
Definition SelectOrder (failure : option error) (id : string)
    (d : Database) : Order.t + error :=
  match failure with
  | Some e => inr e
  | None =>
      match orders d !! id with
      | Some row => inl row
      | None => inr sql_ErrNoRows
      end
  end.

(** [SELECT response FROM idempotency_keys
     WHERE endpoint_name = $1 AND endpoint_scheme = $2 AND key = $3
       AND valid_to > NOW()], scanned into [response];
    [NOW] is the database's clock. *)
Definition SelectIdempotencyResponse (failure : option error)
    (NOW : time.Time) (k : IdempotencyKey) (d : Database) : Bytes + error :=
  match failure with
  | Some e => inr e
  | None =>
      match idempotency_keys d !! k with
      | Some row =>
          if bool_decide (NOW < valid_to row)%Z then inl (response row)
          else inr sql_ErrNoRows
      | None => inr sql_ErrNoRows
      end
  end.

(** [INSERT INTO idempotency_keys (...) VALUES ($1, ..., $6)
     ON CONFLICT (endpoint_name, endpoint_scheme, key) DO UPDATE
     SET response = EXCLUDED.response, valid_to = EXCLUDED.valid_to] *)
Definition UpsertIdempotencyResponse (failure : option error)
    (k : IdempotencyKey) (responseJSON : Bytes)
    (validTo createdAt : time.Time) (d : Database)
    : option error * Database :=
  match failure with
  | Some e => (Some e, d)
  | None =>
      let row :=
        match idempotency_keys d !! k with
        | Some old => mkIdempotencyRow responseJSON validTo (created_at old)
        | None => mkIdempotencyRow responseJSON validTo createdAt
        end in
      (None, mkDatabase (orders d) (<[k := row]> (idempotency_keys d)))
  end.
End sql.
End sql.

(** ** package repository *)

Module repository.
Section repository.
Context {J : JSON}.

(** the assignments at the head of [CreateOrder]: what the order
    holds when the INSERT is issued *)
Definition populate (now : time.Time) (id : uuid.UUID) (order : Order.t)
  : Order.t :=
  Order.mk (uuid.String_ id)
           (Order.CustomerID order) (Order.ProductID order)
           (Order.Quantity order) (Order.TotalPrice order)
           "created"
           (if time.IsZero (Order.OrderTime order) then now
            else Order.OrderTime order)
           now now.

(** [CreateOrder(ctx, order)]: fills the order in place and inserts
    it; returns the order as the pointer then holds it, and the error. *)
Definition CreateOrder (Now : time.Time) (New : uuid.UUID)
    (failure : option error) (order : Order.t)
    : M (Order.t * option error) :=
  let order := populate Now New order in
  d <- getDB ;;
  let (err, d') := sql.InsertOrder failure order d in
  match err with
  | Some e =>
      logger zap.ErrorLevel "Failed to create order"
        [zap.Error e; zap.String_ "customer_id" (Order.CustomerID order)] ;;;
      ret (order, Some e)
  | None =>
      putDB d' ;;;
      logger zap.InfoLevel "Order created successfully"
        [zap.String_ "order_id" (Order.ID order)] ;;;
      ret (order, None)
  end.

(** [GetOrderByID(ctx, id)] *)
Definition GetOrderByID (failure : option error) (id : string)
    : M (option Order.t * option error) :=
  d <- getDB ;;
  match sql.SelectOrder failure id d with
  | inl order => ret (Some order, None)
  | inr err =>
      if decide (err = sql_ErrNoRows) then ret (None, Some ErrOrderNotFound)
      else
        logger zap.ErrorLevel "Failed to get order by ID"
          [zap.Error err; zap.String_ "order_id" id] ;;;
        ret (None, Some err)
  end.

(** [GetIdempotencyResponse(ctx, endpointName, endpointScheme, key)] *)
Definition GetIdempotencyResponse (failure : option error)
    (NOW : time.Time) (endpointName endpointScheme key : string)
    : M (option Bytes * option error) :=
  d <- getDB ;;
  match sql.SelectIdempotencyResponse failure NOW
          (endpointName, endpointScheme, key) d with
  | inl response => ret (Some response, None)
  | inr err =>
      if decide (err = sql_ErrNoRows)
      then ret (None, Some ErrIdempotencyNotFound)
      else
        logger zap.ErrorLevel "Failed to get idempotency response"
          [zap.Error err;
           zap.String_ "endpoint_name" endpointName;
           zap.String_ "endpoint_scheme" endpointScheme;
           zap.String_ "idempotency_key" key] ;;;
        ret (None, Some err)
  end.

(** [StoreIdempotencyResponse(ctx, endpointName, endpointScheme, key,
    response, validityDuration)]; [Now1] and [Now2] are the two
    readings of the clock, for [validTo] and for [created_at]. *)
Definition StoreIdempotencyResponse (Now1 Now2 : time.Time)
    (failure : option error) (endpointName endpointScheme key : string)
    (response : Order.t) (validityDuration : time.Duration)
    : M (option error) :=
  match Marshal response with
  | inr err =>
      logger zap.ErrorLevel "Failed to marshal response for idempotency"
        [zap.Error err] ;;;
      ret (Some err)
  | inl responseJSON =>
      let validTo := time.Add Now1 validityDuration in
      d <- getDB ;;
      let (err, d') :=
        sql.UpsertIdempotencyResponse failure
          (endpointName, endpointScheme, key) responseJSON validTo Now2 d in
      match err with
      | Some e =>
          logger zap.ErrorLevel "Failed to store idempotency response"
            [zap.Error e;
             zap.String_ "endpoint_name" endpointName;
             zap.String_ "endpoint_scheme" endpointScheme;
             zap.String_ "idempotency_key" key] ;;;
          ret (Some e)
      | None => putDB d' ;;; ret None
      end
  end.
End repository.
End repository.

(** ** package events: the worker *)

Module events.
Section events.
Context {J : JSON}.

(** [ToOrder()]: the event as an order, with no times *)
Definition ToOrder (e : OrderCreatedEvent.t) : Order.t :=
  Order.mk (OrderCreatedEvent.OrderID e)
           (OrderCreatedEvent.CustomerID e) (OrderCreatedEvent.ProductID e)
           (OrderCreatedEvent.Quantity e) (OrderCreatedEvent.TotalPrice e)
           "created" time.zero time.zero time.zero.

(** [processEvent(ctx, event)]: two log lines around a fixed sleep *)
Definition processEvent (event : OrderCreatedEvent.t) : M unit :=
  logger zap.InfoLevel "Processing OrderCreated event"
    [zap.String_ "order_id" (OrderCreatedEvent.OrderID event);
     zap.String_ "customer_id" (OrderCreatedEvent.CustomerID event);
     zap.Int "quantity" (OrderCreatedEvent.Quantity event);
     zap.Float64 "total_price" (OrderCreatedEvent.TotalPrice event)] ;;;
  logger zap.InfoLevel "OrderCreated event processed successfully"
    [zap.String_ "order_id" (OrderCreatedEvent.OrderID event)].

(** the three cases of the [select] in [Start], in source order *)
Inductive Case : Type := CaseEvent | CaseCtxDone | CaseStop.

(** What the worker's goroutine sees when it reaches its [select]:
    whether [ctx] is cancelled, whether [stopChan] is closed, and
    which ready case the runtime takes. *)
Record Signals : Type := mkSignals {
  ctx_Done : bool;
  stopChan_closed : bool;
  pick : nat;
}.

(** [Stop()] closes the stop channel; cancelling [ctx] closes its
    [Done()] channel.  Either is seen by every later select. *)
Definition Stop (s : Signals) : Signals :=
  mkSignals (ctx_Done s) true (pick s).
Definition cancel (s : Signals) : Signals :=
  mkSignals true (stopChan_closed s) (pick s).

Definition ready (s : Signals) (c : channel.chan OrderCreatedEvent.t)
  : list Case :=
  (if channel.can_recv c then [CaseEvent] else [])
    ++ (if ctx_Done s then [CaseCtxDone] else [])
    ++ (if stopChan_closed s then [CaseStop] else []).

Inductive Step : Type :=
  | Processed (event : OrderCreatedEvent.t)  (* loop again *)
  | Return                                   (* [Start] returns *)
  | Parked.                                  (* the select waits *)

(** One pass through the body of [for { select { ... } }]. *)
Definition iteration (s : Signals) : M Step :=
  c <- getChan ;;
  match channel.select (ready s c) None (pick s) with
  | Some CaseEvent =>
      match channel.recv c with
      | Some (event, c') =>
          putChan c' ;;; processEvent event ;;; ret (Processed event)
      | None => ret Parked
      end
  | Some CaseCtxDone =>
      logger zap.InfoLevel
        "Event worker stopping due to context cancellation" [] ;;;
      ret Return
  | Some CaseStop =>
      logger zap.InfoLevel "Event worker stopping" [] ;;;
      ret Return
  | None => putChan (channel.park c) ;;; ret Parked
  end.

(** What happens around the worker between two of its selects:
    events that request handlers enqueue meanwhile, then what the
    next select sees. *)
Record Tick : Type := mkTick {
  arrivals : list OrderCreatedEvent.t;
  signals : Signals;
}.

(** a handler's non-blocking send: dropped when it cannot proceed *)
Definition arrive (c : channel.chan OrderCreatedEvent.t)
    (event : OrderCreatedEvent.t) : channel.chan OrderCreatedEvent.t :=
  if channel.can_send c then channel.send event c else c.

Inductive Status : Type := Running | Stopped.

(** The loop of [Start]: one wake-up of the select per tick; a parked
    select is tried again at the next tick. *)
Fixpoint loop (schedule : list Tick) : M Status :=
  match schedule with
  | [] => ret Running
  | tick :: schedule' =>
      c <- getChan ;;
      putChan (foldl arrive c (arrivals tick)) ;;;
      step <- iteration (signals tick) ;;
      match step with
      | Return => ret Stopped
      | Processed _ | Parked => loop schedule'
      end
  end.

(** [Start(ctx)] *)
Definition Start (schedule : list Tick) : M Status :=
  logger zap.InfoLevel "Event worker started" [] ;;;
  loop schedule.
End events.
End events.

(** ** package service *)

Module service.
Section service.
Context {J : JSON}.

(** What one call of [CreateOrder] reads from outside the program, in
    the order it reads it. *)
Record Env : Type := mkEnv {
  lookup_failure : option error;   (* the SELECT on idempotency_keys *)
  NOW : time.Time;                 (* NOW() in that SELECT *)
  Now_create : time.Time;          (* time.Now() in repo.CreateOrder *)
  New : uuid.UUID;                 (* uuid.New() *)
  insert_failure : option error;   (* the INSERT into orders *)
  Now_validTo : time.Time;         (* time.Now() for validTo *)
  Now_createdAt : time.Time;       (* time.Now() for created_at *)
  upsert_failure : option error;   (* the upsert into idempotency_keys *)
  Now_event : time.Time;           (* time.Now() for the event *)
  ctx_Done : bool;                 (* ctx cancelled at the select *)
  pick : nat;                      (* the select's choice *)
}.

(** the cases of the [select] in [CreateOrder], in source order *)
Inductive Case : Type := CaseSend | CaseCtxDone | CaseDefault.

Definition ready (env : Env) (c : channel.chan OrderCreatedEvent.t)
  : list Case :=
  (if channel.can_send c then [CaseSend] else [])
    ++ (if ctx_Done env then [CaseCtxDone] else []).

(** step 1 of [CreateOrder]: the saved order to return, if any *)
Definition checkIdempotency (env : Env)
    (endpointName endpointScheme : string) (req : CreateOrderRequest.t)
    : M (option Order.t) :=
  r <- repository.GetIdempotencyResponse (lookup_failure env) (NOW env)
         endpointName endpointScheme
         (CreateOrderRequest.IdempotencyKey req) ;;
  match r with
  | (Some savedResponse, None) =>
      logger zap.InfoLevel
        "Idempotent request detected, returning saved response"
        [zap.String_ "endpoint_name" endpointName;
         zap.String_ "endpoint_scheme" endpointScheme;
         zap.String_ "idempotency_key"
           (CreateOrderRequest.IdempotencyKey req)] ;;;
      match Unmarshal savedResponse with
      | inr err =>
          logger zap.WarnLevel
            "Failed to unmarshal saved idempotency response, proceeding with new request"
            [zap.Error err] ;;;
          ret None
      | inl order => ret (Some order)
      end
  | (_, Some err) =>
      if decide (err = ErrIdempotencyNotFound) then ret None
      else
        logger zap.WarnLevel
          "Error checking idempotency, proceeding with new request"
          [zap.Error err] ;;;
        ret None
  | (None, None) => ret None
  end.

(** the [select] of step 4 *)
Definition emit (env : Env) (order : Order.t)
    (event : OrderCreatedEvent.t) : M (outcome Case) :=
  c <- getChan ;;
  match channel.select (ready env c) (Some CaseDefault) (pick env) with
  | Some CaseSend =>
      putChan (channel.send event c) ;;;
      logger zap.InfoLevel "OrderCreated event emitted"
        [zap.String_ "order_id" (Order.ID order)] ;;;
      ret (Returns CaseSend)
  | Some CaseCtxDone =>
      logger zap.WarnLevel "Context cancelled before event could be emitted"
        [zap.String_ "order_id" (Order.ID order)] ;;;
      ret (Returns CaseCtxDone)
  | Some CaseDefault =>
      logger zap.WarnLevel "Event channel full, event not emitted"
        [zap.String_ "order_id" (Order.ID order)] ;;;
      ret (Returns CaseDefault)
  | None => ret Blocks
  end.

(** the [&models.Order{...}] literal of step 2: the request's fields,
    zero values elsewhere *)
Definition draft (req : CreateOrderRequest.t) : Order.t :=
  Order.mk EmptyString
           (CreateOrderRequest.CustomerID req)
           (CreateOrderRequest.ProductID req)
           (CreateOrderRequest.Quantity req)
           (CreateOrderRequest.TotalPrice req)
           EmptyString
           (CreateOrderRequest.OrderTime req)
           time.zero time.zero.

(** the [&events.OrderCreatedEvent{...}] literal of step 4 *)
Definition eventOf (env : Env) (order : Order.t) : OrderCreatedEvent.t :=
  OrderCreatedEvent.mk (Order.ID order)
    (Order.CustomerID order) (Order.ProductID order)
    (Order.Quantity order) (Order.TotalPrice order)
    (time.Unix (Now_event env)).

(** [CreateOrder(ctx, endpointName, endpointScheme, req)] *)
Definition CreateOrder (env : Env) (endpointName endpointScheme : string)
    (req : CreateOrderRequest.t)
    : M (outcome (option Order.t * option error)) :=
  saved <- checkIdempotency env endpointName endpointScheme req ;;
  match saved with
  | Some order => ret (Returns (Some order, None))
  | None =>
      let order := draft req in
      r <- repository.CreateOrder (Now_create env) (New env)
             (insert_failure env) order ;;
      let (order, err) := r in
      match err with
      | Some e => ret (Returns (None, Some e))
      | None =>
          let validityDuration := (10 * time.Minute)%Z in
          err <- repository.StoreIdempotencyResponse
                   (Now_validTo env) (Now_createdAt env)
                   (upsert_failure env) endpointName endpointScheme
                   (CreateOrderRequest.IdempotencyKey req)
                   order validityDuration ;;
          match err with
          | Some e =>
              logger zap.WarnLevel "Failed to store idempotency response"
                [zap.Error e;
                 zap.String_ "endpoint_name" endpointName;
                 zap.String_ "endpoint_scheme" endpointScheme;
                 zap.String_ "idempotency_key"
                   (CreateOrderRequest.IdempotencyKey req)]
          | None => ret tt
          end ;;;
          let event := eventOf env order in
          sent <- emit env order event ;;
          match sent with
          | Returns _ => ret (Returns (Some order, None))
          | Blocks => ret Blocks
          | Panics => ret Panics
          end
      end
  end.

(** [GetOrderByID(ctx, id)] *)
Definition GetOrderByID (failure : option error) (id : string)
    : M (option Order.t * option error) :=
  repository.GetOrderByID failure id.
End service.
End service.

(** ** Struct tags and request validation

    The request's constraints live in the [binding] struct tags, read
    with [reflect.StructTag.Get] and checked by the validator behind
    gin's [ShouldBindJSON]. *)

Module reflect.
Definition dquote : ascii := ascii_of_nat 34.
Definition backslash : ascii := ascii_of_nat 92.
Definition newline : ascii := ascii_of_nat 10.

Fixpoint skip_spaces (tag : string) : string :=
  match tag with
  | String c tag' => if Ascii.eqb c " " then skip_spaces tag' else tag
  | EmptyString => tag
  end.

(** a byte of a key: above space, and none of colon, quote, DEL *)
Definition key_byte (c : ascii) : bool :=
  (32 <? nat_of_ascii c)%nat && negb (Ascii.eqb c ":")
    && negb (Ascii.eqb c dquote) && negb (nat_of_ascii c =? 127)%nat.

(** the key at the head of [tag], and what follows it *)
Fixpoint scan_key (tag : string) : string * string :=
  match tag with
  | String c tag' =>
      if key_byte c
      then let (name, rest) := scan_key tag' in (String c name, rest)
      else (EmptyString, tag)
  | EmptyString => (EmptyString, EmptyString)
  end.

(** after an opening quote: the text up to the closing quote and what
    follows that; [None] when the quote is never closed *)
Fixpoint scan_quoted (tag : string) : option (string * string) :=
  match tag with
  | EmptyString => None
  | String c tag' =>
      if Ascii.eqb c dquote then Some (EmptyString, tag')
      else if Ascii.eqb c backslash then
        match tag' with
        | String c' tag'' =>
            match scan_quoted tag'' with
            | Some (q, rest) => Some (String c (String c' q), rest)
            | None => None
            end
        | EmptyString => None
        end
      else
        match scan_quoted tag' with
        | Some (q, rest) => Some (String c q, rest)
        | None => None
        end
  end.

Fixpoint plain (q : string) : bool :=
  match q with
  | EmptyString => true
  | String c q' =>
      negb (Ascii.eqb c backslash) && negb (Ascii.eqb c newline) && plain q'
  end.

(** [strconv.Unquote] of a quoted text without escapes (the tags of
    this program have none; an escape is refused here) *)
Definition Unquote (q : string) : option string :=
  if plain q then Some q else None.

(** the loop of [StructTag.Lookup]; [fuel] bounds the pairs read *)
Fixpoint Lookup_from (fuel : nat) (tag key : string) : option string :=
  match fuel with
  | O => None
  | S fuel' =>
      match skip_spaces tag with
      | EmptyString => None
      | String _ _ as tag =>
          match scan_key tag with
          | (String _ _ as name, String colon (String quote rest)) =>
              if Ascii.eqb colon ":" && Ascii.eqb quote dquote then
                match scan_quoted rest with
                | Some (qvalue, tag') =>
                    if String.eqb key name then Unquote qvalue
                    else Lookup_from fuel' tag' key
                | None => None
                end
              else None
          | _ => None
          end
      end
  end.

Definition Lookup (tag key : string) : option string :=
  Lookup_from (String.length tag) tag key.

(** [StructTag.Get]: the empty string when the key is not found *)
Definition Get (tag key : string) : string :=
  match Lookup tag key with Some v => v | None => EmptyString end.

(** a tag pair [key:"value"] as written in the source *)
Definition pair (key value : string) : string :=
  key +:+ ":" +:+ String dquote value +:+ String dquote EmptyString.

(** a pair whose value lacks its closing quote *)
Definition unclosed_pair (key value : string) : string :=
  key +:+ ":" +:+ String dquote value.
End reflect.

Module validator.
(** the value of a field, by kind *)
Inductive Value : Type :=
  | VString (s : string)
  | VInt (n : Z)
  | VFloat (f : float64)
  | VTime (t : time.Time).

(** the constraints the request uses *)
Inductive Rule : Type :=
  | required
  | min (param : Z).

Definition ruleName (r : Rule) : string :=
  match r with required => "required" | min _ => "min" end.

Definition digit (c : ascii) : option Z :=
  let n := nat_of_ascii c in
  if (48 <=? n)%nat && (n <=? 57)%nat then Some (Z.of_nat (n - 48)) else None.

Fixpoint parseDigits (acc : Z) (s : string) : option Z :=
  match s with
  | EmptyString => Some acc
  | String c s' =>
      match digit c with
      | Some d => parseDigits (10 * acc + d)%Z s'
      | None => None
      end
  end.

Definition parseParam (s : string) : option Z :=
  match s with
  | EmptyString => None
  | String _ _ => parseDigits 0 s
  end.

(** the text before the first [sep], and the text after it if any *)
Fixpoint cut (sep : ascii) (s : string) : string * option string :=
  match s with
  | EmptyString => (EmptyString, None)
  | String c s' =>
      if Ascii.eqb c sep then (EmptyString, Some s')
      else let (a, b) := cut sep s' in (String c a, b)
  end.

Fixpoint split (fuel : nat) (sep : ascii) (s : string) : list string :=
  match fuel with
  | O => [s]
  | S fuel' =>
      match cut sep s with
      | (a, Some rest) => a :: split fuel' sep rest
      | (a, None) => [a]
      end
  end.

Definition parseRule (s : string) : option Rule :=
  match cut "=" s with
  | (name, None) => if String.eqb name "required" then Some required else None
  | (name, Some param) =>
      if String.eqb name "min" then min <$> parseParam param else None
  end.

(** the rules of a [binding] tag value; [None] for a rule the
    validator does not know *)
Definition parseRules (binding : string) : option (list Rule) :=
  match binding with
  | EmptyString => Some []
  | String _ _ =>
      mapM parseRule (split (String.length binding) "," binding)
  end.

(** [required]: the value is not the zero value of its type *)
Definition hasValue (v : Value) : bool :=
  match v with
  | VString s => negb (String.eqb s EmptyString)
  | VInt n => negb (n =? 0)%Z
  | VFloat f => negb (PrimFloat.eqb f 0%float)
  | VTime t => negb (time.IsZero t)
  end.

(** [min=p]: length at least [p] for a string, value at least [p] for
    a number *)
Definition isGte (p : Z) (v : Value) : bool :=
  match v with
  | VString s => (p <=? Z.of_nat (String.length s))%Z
  | VInt n => (p <=? n)%Z
  | VFloat f => PrimFloat.leb (PrimFloat.of_uint63 (Uint63.of_Z p)) f
  | VTime _ => false
  end.

Definition check (r : Rule) (v : Value) : bool :=
  match r with
  | required => hasValue v
  | min p => isGte p v
  end.

(** the first rule the value fails, if any *)
Fixpoint firstFailure (rules : list Rule) (v : Value) : option Rule :=
  match rules with
  | [] => None
  | r :: rules' => if check r v then firstFailure rules' v else Some r
  end.

Record FieldError : Type := mkFieldError {
  Namespace : string;
  Field : string;
  Tag : string;
}.

Definition FieldError_Error (fe : FieldError) : string :=
  "Key: '" +:+ Namespace fe +:+ "' Error:Field validation for '"
    +:+ Field fe +:+ "' failed on the '" +:+ Tag fe +:+ "' tag".

(** a struct to validate: its name and, per field, the name, the
    struct tag and the value *)
Definition validateField (structName : string)
    (field : string * string * Value) : list FieldError :=
  let '(name, tag, v) := field in
  match parseRules (reflect.Get tag "binding") with
  | Some rules =>
      match firstFailure rules v with
      | Some r =>
          [mkFieldError (structName +:+ "." +:+ name) name (ruleName r)]
      | None => []
      end
  | None => [mkFieldError (structName +:+ "." +:+ name) name "undefined"]
  end.

Definition Struct (structName : string)
    (fields : list (string * string * Value)) : list FieldError :=
  concat (validateField structName <$> fields).

Fixpoint join (sep : string) (l : list string) : string :=
  match l with
  | [] => EmptyString
  | [s] => s
  | s :: l' => s +:+ sep +:+ join sep l'
  end.

Definition ValidationErrors_Error (errs : list FieldError) : error :=
  ErrOther (join (String reflect.newline EmptyString)
                 (FieldError_Error <$> errs)).
End validator.

(** the struct tags of [models.CreateOrderRequest], as written *)
Module tags.
Definition CustomerID : string :=
  reflect.pair "json" "customer_id" +:+ " " +:+ reflect.pair "binding" "required".
Definition ProductID : string :=
  reflect.pair "json" "product_id" +:+ " " +:+ reflect.pair "binding" "required".
Definition Quantity : string :=
  reflect.pair "json" "quantity" +:+ " "
    +:+ reflect.pair "binding" "required,min=1".
Definition TotalPrice : string :=
  reflect.pair "json" "total_price" +:+ " "
    +:+ reflect.pair "binding" "required,min=0".
(** the [binding] value of this tag has no closing quote *)
Definition OrderTime : string :=
  reflect.pair "json" "order_time,omitempty" +:+ " "
    +:+ reflect.unclosed_pair "binding" "required".
Definition IdempotencyKey : string :=
  reflect.pair "json" "idempotency_key" +:+ " "
    +:+ reflect.pair "binding" "required".
End tags.

Module binding.
Section binding.
Context {J : JSON}.

Definition fields (req : CreateOrderRequest.t)
  : list (string * string * validator.Value) :=
  [("CustomerID", tags.CustomerID,
      validator.VString (CreateOrderRequest.CustomerID req));
   ("ProductID", tags.ProductID,
      validator.VString (CreateOrderRequest.ProductID req));
   ("Quantity", tags.Quantity,
      validator.VInt (CreateOrderRequest.Quantity req));
   ("TotalPrice", tags.TotalPrice,
      validator.VFloat (CreateOrderRequest.TotalPrice req));
   ("OrderTime", tags.OrderTime,
      validator.VTime (CreateOrderRequest.OrderTime req));
   ("IdempotencyKey", tags.IdempotencyKey,
      validator.VString (CreateOrderRequest.IdempotencyKey req))].

Definition validate (req : CreateOrderRequest.t) : option error :=
  match validator.Struct "CreateOrderRequest" (fields req) with
  | [] => None
  | (_ :: _) as errs => Some (validator.ValidationErrors_Error errs)
  end.

(** [c.ShouldBindJSON(&req)]: decode the body, then validate *)
Definition ShouldBindJSON (body : Bytes)
  : CreateOrderRequest.t * option error :=
  match Decode body with
  | inr err => (CreateOrderRequest.zero, Some err)
  | inl req => (req, validate req)
  end.
End binding.
End binding.

(** ** package handler *)

Module handler.
Section handler.
Context {J : JSON}.

Definition StatusOK : Z := 200%Z.
Definition StatusCreated : Z := 201%Z.
Definition StatusBadRequest : Z := 400%Z.
Definition StatusNotFound : Z := 404%Z.
Definition StatusInternalServerError : Z := 500%Z.

(** what [c.JSON(code, obj)] is given *)
Inductive Body : Type :=
  | H (kv : list (string * string))   (* gin.H *)
  | OrderJSON (order : Order.t).

Record Response : Type := mkResponse {
  code : Z;
  obj : Body;
}.

(** [CreateOrder(c)] for a request on [path] with [method] and [body] *)
Definition CreateOrder (env : service.Env) (path method : string)
    (body : Bytes) : M (outcome Response) :=
  let (req, err) := binding.ShouldBindJSON body in
  match err with
  | Some e =>
      logger zap.WarnLevel "Invalid request body" [zap.Error e] ;;;
      ret (Returns (mkResponse StatusBadRequest
             (H [("error", "Invalid request body"); ("details", Error e)])))
  | None =>
      let endpointName := path in
      let endpointScheme := method in
      r <- service.CreateOrder env endpointName endpointScheme req ;;
      match r with
      | Blocks => ret Blocks
      | Panics => ret Panics
      | Returns (_, Some e) =>
          logger zap.ErrorLevel "Failed to create order" [zap.Error e] ;;;
          ret (Returns (mkResponse StatusInternalServerError
                 (H [("error", "Failed to create order")])))
      | Returns (Some order, None) =>
          logger zap.InfoLevel "Order created successfully"
            [zap.String_ "order_id" (Order.ID order);
             zap.String_ "customer_id" (Order.CustomerID order)] ;;;
          ret (Returns (mkResponse StatusCreated (OrderJSON order)))
      | Returns (None, None) =>
          (* [order.ID] on a nil order *)
          ret Panics
      end
  end.
(** what [c.JSON(code, obj)] is given when [obj] is a pointer that
    may be nil *)
Record Reply : Type := mkReply {
  status : Z;
  payload : option Body;
}.

(** [GetOrderByID(c)] for a request whose path parameter is [id] *)
Definition GetOrderByID (failure : option error) (id : string) : M Reply :=
  if String.eqb id EmptyString then
    ret (mkReply StatusBadRequest (Some (H [("error", "Order ID is required")])))
  else
    r <- service.GetOrderByID failure id ;;
    match r with
    | (_, Some err) =>
        if decide (err = ErrOrderNotFound) then
          ret (mkReply StatusNotFound (Some (H [("error", "Order not found")])))
        else
          logger zap.ErrorLevel "Failed to get order"
            [zap.Error err; zap.String_ "order_id" id] ;;;
          ret (mkReply StatusInternalServerError
                 (Some (H [("error", "Failed to retrieve order")])))
    | (order, None) => ret (mkReply StatusOK (OrderJSON <$> order))
    end.

(** [HealthCheck(c)] *)
Definition HealthCheck : Response :=
  mkResponse StatusOK (H [("status", "healthy")]).
End handler.
End handler.

(** ** package config

    The process environment is a finite map; [os.Getenv] answers the
    empty string for a variable that is not set. *)

Module strconv.
(** [ParseBool]: the twelve spellings, anything else is an error *)
Definition ParseBool (str : string) : option bool :=
  if String.eqb str "1" || String.eqb str "t" || String.eqb str "T"
     || String.eqb str "TRUE" || String.eqb str "true"
     || String.eqb str "True" then Some true
  else if String.eqb str "0" || String.eqb str "f" || String.eqb str "F"
     || String.eqb str "FALSE" || String.eqb str "false"
     || String.eqb str "False" then Some false
  else None.

(** the value of a run of decimal digits; [None] on any other byte *)
Fixpoint digits (acc : Z) (s : string) : option Z :=
  match s with
  | EmptyString => Some acc
  | String c s' =>
      let n := nat_of_ascii c in
      if (48 <=? n)%nat && (n <=? 57)%nat
      then digits (10 * acc + Z.of_nat (n - 48))%Z s'
      else None
  end.

(** [Atoi]: an optional sign, then one decimal digit or more, and a
    value that fits an [int] of 64 bits *)
Definition Atoi (s : string) : option Z :=
  let (neg, body) :=
    match s with
    | String c s' =>
        if Ascii.eqb c "-" then (true, s')
        else if Ascii.eqb c "+" then (false, s')
        else (false, s)
    | EmptyString => (false, s)
    end in
  match body with
  | EmptyString => None
  | String _ _ =>
      match digits 0 body with
      | Some n =>
          let v := if neg then (- n)%Z else n in
          if bool_decide (- 2 ^ 63 ≤ v < 2 ^ 63)%Z then Some v else None
      | None => None
      end
  end.
End strconv.

Module config.
Record Config : Type := mkConfig {
  ServerPort : string;
  DBHost : string;
  DBPort : string;
  DBUser : string;
  DBPassword : string;
  DBName : string;
  DBSSLMode : string;
  LogLevel : string;
  OTelEnabled : bool;
  EventQueueSize : Z;
  Hostname : string;
}.

Definition Getenv (environ : gmap string string) (key : string) : string :=
  match environ !! key with Some value => value | None => EmptyString end.

Definition getEnv (environ : gmap string string) (key defaultValue : string)
  : string :=
  let value := Getenv environ key in
  if negb (String.eqb value EmptyString) then value else defaultValue.

Definition getEnvBool (environ : gmap string string) (key : string)
    (defaultValue : bool) : bool :=
  let value := Getenv environ key in
  if negb (String.eqb value EmptyString) then
    match strconv.ParseBool value with
    | Some parsed => parsed
    | None => defaultValue
    end
  else defaultValue.

Definition getEnvInt (environ : gmap string string) (key : string)
    (defaultValue : Z) : Z :=
  let value := Getenv environ key in
  if negb (String.eqb value EmptyString) then
    match strconv.Atoi value with
    | Some parsed => parsed
    | None => defaultValue
    end
  else defaultValue.

Definition LoadConfig (environ : gmap string string) : Config :=
  mkConfig
    (getEnv environ "SERVER_PORT" "8080")
    (getEnv environ "DB_HOST" "localhost")
    (getEnv environ "DB_PORT" "5432")
    (getEnv environ "DB_USER" "postgres")
    (getEnv environ "DB_PASSWORD" "postgres")
    (getEnv environ "DB_NAME" "ordersdb")
    (getEnv environ "DB_SSLMODE" "disable")
    (getEnv environ "LOG_LEVEL" "info")
    (getEnvBool environ "OTEL_ENABLED" true)
    (getEnvInt environ "EVENT_QUEUE_SIZE" 100)
    (getEnv environ "HOSTNAME" "localhost").
End config.

(** ** The running service *)

Section running.
Context {J : JSON}.

(** the world when [main] starts serving on migrated, empty tables
    with an event channel of [size] slots *)
Definition start (size : nat) : World :=
  mkWorld (mkDatabase ∅ ∅) (channel.make size) [].

(** the worlds the service can be in: every change is one handled
    request or one pass of the worker *)
Inductive reachable : World → Prop :=
  | reachable_start (size : nat) : reachable (start size)
  | reachable_POST (env : service.Env) (path method : string)
      (body : Bytes) (w : World) :
      reachable w →
      reachable (handler.CreateOrder env path method body w).2
  | reachable_CreateOrder (env : service.Env)
      (endpointName endpointScheme : string)
      (req : CreateOrderRequest.t) (w : World) :
      reachable w →
      reachable (service.CreateOrder env endpointName endpointScheme req w).2
  | reachable_GetOrderByID (failure : option error) (id : string)
      (w : World) :
      reachable w → reachable (service.GetOrderByID failure id w).2
  | reachable_worker (s : events.Signals) (w : World) :
      reachable w → reachable (events.iteration s w).2.

(** every saved response is the encoding of an order in the table *)
Definition responses_backed (d : Database) : Prop :=
  ∀ (k : IdempotencyKey) (row : IdempotencyRow),
    idempotency_keys d !! k = Some row →
    ∃ o : Order.t,
      Marshal o = inl (response row) ∧ is_Some (orders d !! Order.ID o).
End running.

(** ** A small codec for running the model: objects of scalars

    A document is a list of members; a time member stands for the string
    holding the RFC 3339 text of the instant, a float member for the
    number literal that reads back as that float.  Members the target
    struct lacks are ignored, missing members leave the zero value, the
    last of several members with one name wins, a member of the wrong
    kind is an error. *)

Module jsonobject.
Inductive Scalar : Type :=
  | JString (s : string)
  | JInt (n : Z)
  | JFloat (f : float64)
  | JTime (t : time.Time).

Definition Object : Type := list (string * Scalar).

Fixpoint member (name : string) (o : Object) : option Scalar :=
  match o with
  | [] => None
  | (k, v) :: o' =>
      match member name o' with
      | Some v' => Some v'
      | None => if String.eqb k name then Some v else None
      end
  end.

Definition mismatch : error := ErrOther "json: cannot unmarshal value".
Definition unsupported : error := ErrOther "json: unsupported value".

Definition asString (v : option Scalar) : string + error :=
  match v with
  | None => inl EmptyString
  | Some (JString s) => inl s
  | Some _ => inr mismatch
  end.

(** an [int] holds 64 bits *)
Definition isInt (n : Z) : bool := bool_decide (- 2 ^ 63 ≤ n < 2 ^ 63)%Z.

Definition asInt (v : option Scalar) : Z + error :=
  match v with
  | None => inl 0%Z
  | Some (JInt n) => if isInt n then inl n else inr mismatch
  | Some _ => inr mismatch
  end.

Definition ofZ (n : Z) : float64 :=
  if (n <? 0)%Z
  then PrimFloat.opp (PrimFloat.of_uint63 (Uint63.of_Z (- n)))
  else PrimFloat.of_uint63 (Uint63.of_Z n).

Definition asFloat (v : option Scalar) : float64 + error :=
  match v with
  | None => inl 0%float
  | Some (JFloat f) => inl f
  | Some (JInt n) =>
      if bool_decide (- 2 ^ 63 < n < 2 ^ 63)%Z then inl (ofZ n)
      else inr mismatch
  | Some _ => inr mismatch
  end.

Definition asTime (v : option Scalar) : time.Time + error :=
  match v with
  | None => inl time.zero
  | Some (JTime t) => inl t
  | Some _ => inr mismatch
  end.

Definition andThen {A B : Type} (r : A + error) (k : A → B + error)
  : B + error :=
  match r with inl a => k a | inr e => inr e end.

Definition finite (f : float64) : bool :=
  negb (PrimFloat.is_nan f || PrimFloat.is_infinity f).

Definition marshalOrder (o : Order.t) : Object + error :=
  if finite (Order.TotalPrice o) && isInt (Order.Quantity o) then
    inl [("id", JString (Order.ID o));
         ("customer_id", JString (Order.CustomerID o));
         ("product_id", JString (Order.ProductID o));
         ("quantity", JInt (Order.Quantity o));
         ("total_price", JFloat (Order.TotalPrice o));
         ("status", JString (Order.Status o));
         ("order_time", JTime (Order.OrderTime o));
         ("created_at", JTime (Order.CreatedAt o));
         ("updated_at", JTime (Order.UpdatedAt o))]
  else inr unsupported.

Definition unmarshalOrder (b : Object) : Order.t + error :=
  andThen (asString (member "id" b)) (λ id,
  andThen (asString (member "customer_id" b)) (λ customer,
  andThen (asString (member "product_id" b)) (λ product,
  andThen (asInt (member "quantity" b)) (λ quantity,
  andThen (asFloat (member "total_price" b)) (λ price,
  andThen (asString (member "status" b)) (λ status,
  andThen (asTime (member "order_time" b)) (λ orderTime,
  andThen (asTime (member "created_at" b)) (λ createdAt,
  andThen (asTime (member "updated_at" b)) (λ updatedAt,
    inl (Order.mk id customer product quantity price status
                  orderTime createdAt updatedAt)))))))))).

Definition decodeRequest (b : Object) : CreateOrderRequest.t + error :=
  andThen (asString (member "customer_id" b)) (λ customer,
  andThen (asString (member "product_id" b)) (λ product,
  andThen (asInt (member "quantity" b)) (λ quantity,
  andThen (asFloat (member "total_price" b)) (λ price,
  andThen (asTime (member "order_time" b)) (λ orderTime,
  andThen (asString (member "idempotency_key" b)) (λ key,
    inl (CreateOrderRequest.mk customer product quantity price
                               orderTime key))))))).

Definition codec : JSON :=
  {| Bytes := Object;
     Marshal := marshalOrder;
     Unmarshal := unmarshalOrder;
     Decode := decodeRequest |}.
End jsonobject.

(** ** What a call of [CreateOrder] is observed to do

    Names for the values the statements below speak about. *)

Section observations.
Context {J : JSON}.

(** the log line [repository.CreateOrder] writes *)
Definition CreateOrder_entry (order : Order.t) (err : option error)
  : zap.Entry :=
  match err with
  | Some e =>
      zap.mk zap.ErrorLevel "Failed to create order"
        [zap.Error e; zap.String_ "customer_id" (Order.CustomerID order)]
  | None =>
      zap.mk zap.InfoLevel "Order created successfully"
        [zap.String_ "order_id" (Order.ID order)]
  end.

(** what the SELECT of step 1 finds *)
Definition lookup (env : service.Env)
    (endpointName endpointScheme : string) (req : CreateOrderRequest.t)
    (w : World) : Bytes + error :=
  sql.SelectIdempotencyResponse (service.lookup_failure env)
    (service.NOW env)
    (endpointName, endpointScheme, CreateOrderRequest.IdempotencyKey req)
    (db w).

(** the log line of step 3, when the write fails *)
Definition store_warning (ep sch key : string) (e : error) : zap.Entry :=
  zap.mk zap.WarnLevel "Failed to store idempotency response"
    [zap.Error e;
     zap.String_ "endpoint_name" ep;
     zap.String_ "endpoint_scheme" sch;
     zap.String_ "idempotency_key" key].

(** the table after step 3 *)
Definition stored (env : service.Env) (ep sch key : string)
    (order : Order.t) (d : Database) : option error * Database :=
  match Marshal order with
  | inr err => (Some err, d)
  | inl b =>
      sql.UpsertIdempotencyResponse (service.upsert_failure env)
        (ep, sch, key) b
        (time.Add (service.Now_validTo env) (10 * time.Minute)%Z)
        (service.Now_createdAt env) d
  end.

(** the log line of step 4 *)
Definition emit_entry (c : service.Case) (order : Order.t) : zap.Entry :=
  match c with
  | service.CaseSend =>
      zap.mk zap.InfoLevel "OrderCreated event emitted"
        [zap.String_ "order_id" (Order.ID order)]
  | service.CaseCtxDone =>
      zap.mk zap.WarnLevel "Context cancelled before event could be emitted"
        [zap.String_ "order_id" (Order.ID order)]
  | service.CaseDefault =>
      zap.mk zap.WarnLevel "Event channel full, event not emitted"
        [zap.String_ "order_id" (Order.ID order)]
  end.

(** the channel after step 4 took case [c] *)
Definition emitted (c : service.Case) (event : OrderCreatedEvent.t)
    (ch : channel.chan OrderCreatedEvent.t)
  : channel.chan OrderCreatedEvent.t :=
  match c with
  | service.CaseSend => channel.send event ch
  | service.CaseCtxDone | service.CaseDefault => ch
  end.

(** the case was free to be taken *)
Definition enabled (c : service.Case) (env : service.Env)
    (ch : channel.chan OrderCreatedEvent.t) : Prop :=
  match c with
  | service.CaseSend => channel.can_send ch = true
  | service.CaseCtxDone => service.ctx_Done env = true
  | service.CaseDefault =>
      channel.can_send ch = false ∧ service.ctx_Done env = false
  end.

(** what case [c] of the select of step 4 means for the channel *)
Definition enqueue_outcome (c : service.Case) (env : service.Env)
    (event : OrderCreatedEvent.t)
    (before after : channel.chan OrderCreatedEvent.t) : Prop :=
  match c with
  | service.CaseSend =>                      (* delivered *)
      channel.can_send before = true ∧ after = channel.send event before
  | service.CaseCtxDone =>                   (* dropped, context cancelled *)
      service.ctx_Done env = true ∧ after = before
  | service.CaseDefault =>                   (* dropped, queue full *)
      channel.can_send before = false ∧ service.ctx_Done env = false
      ∧ after = before
  end.

(** a request is valid when every field but [OrderTime] has a value,
    the quantity is at least 1 and the price at least 0 *)
Definition valid (req : CreateOrderRequest.t) : Prop :=
  CreateOrderRequest.CustomerID req ≠ EmptyString
  ∧ CreateOrderRequest.ProductID req ≠ EmptyString
  ∧ (1 ≤ CreateOrderRequest.Quantity req)%Z
  ∧ PrimFloat.eqb (CreateOrderRequest.TotalPrice req) 0%float = false
  ∧ PrimFloat.leb 0%float (CreateOrderRequest.TotalPrice req) = true
  ∧ CreateOrderRequest.IdempotencyKey req ≠ EmptyString.

(** either shutdown signal has fired *)
Definition fired (s : events.Signals) : bool :=
  events.ctx_Done s || events.stopChan_closed s.

(** the log lines of [processEvent] *)
Definition processing (event : OrderCreatedEvent.t) : list zap.Entry :=
  [zap.mk zap.InfoLevel "Processing OrderCreated event"
     [zap.String_ "order_id" (OrderCreatedEvent.OrderID event);
      zap.String_ "customer_id" (OrderCreatedEvent.CustomerID event);
      zap.Int "quantity" (OrderCreatedEvent.Quantity event);
      zap.Float64 "total_price" (OrderCreatedEvent.TotalPrice event)];
   zap.mk zap.InfoLevel "OrderCreated event processed successfully"
     [zap.String_ "order_id" (OrderCreatedEvent.OrderID event)]].

(** the same signals with another choice of the runtime *)
Definition repick (s : events.Signals) (pick : nat) : events.Signals :=
  events.mkSignals (events.ctx_Done s) (events.stopChan_closed s) pick.
(** the saved order that step 1 returns, if any *)
Definition replay (env : service.Env) (ep sch : string)
    (req : CreateOrderRequest.t) (w : World) : option Order.t :=
  match lookup env ep sch req w with
  | inl b => match Unmarshal b with inl o => Some o | inr _ => None end
  | inr _ => None
  end.

(** the log line of step 1 on a hit *)
Definition hit_entry (ep sch key : string) : zap.Entry :=
  zap.mk zap.InfoLevel
    "Idempotent request detected, returning saved response"
    [zap.String_ "endpoint_name" ep;
     zap.String_ "endpoint_scheme" sch;
     zap.String_ "idempotency_key" key].

(** the world without the idempotency record of [k] *)
Definition forget (k : IdempotencyKey) (w : World) : World :=
  mkWorld (mkDatabase (orders (db w)) (delete k (idempotency_keys (db w))))
          (eventChan w) (log w).

(** the order that step 2 inserts *)
Definition created (env : service.Env) (req : CreateOrderRequest.t)
  : Order.t :=
  repository.populate (service.Now_create env) (service.New env)
    (service.draft req).
End observations.

(** ** What a run of the worker is observed to do *)

Section worker_observations.
Context {J : JSON}.

(** the ticks of a schedule at which a shutdown signal has fired *)
Definition signalled (schedule : list events.Tick) : list events.Tick :=
  filter (λ tick, fired (events.signals tick) = true) schedule.

(** the two lines the worker logs when it returns *)
Definition cancelled_line : zap.Entry :=
  zap.mk zap.InfoLevel "Event worker stopping due to context cancellation" [].
Definition stopping_line : zap.Entry :=
  zap.mk zap.InfoLevel "Event worker stopping" [].

(** the line [Start] logs first *)
Definition started_line : zap.Entry :=
  zap.mk zap.InfoLevel "Event worker started" [].
End worker_observations.

(** ** A run of the service, for the examples

    One request on an empty service with a one-slot event channel, and
    the requests that follow it in the examples. *)

Module example.
#[local] Existing Instance jsonobject.codec.

Definition request : CreateOrderRequest.t :=
  CreateOrderRequest.mk "c1" "p1" 2 100.5%float time.zero "k1".

(** same key, other fields *)
Definition other_request : CreateOrderRequest.t :=
  CreateOrderRequest.mk "c2" "p2" 7 3%float 5%Z "k1".

(** the first call: nothing fails, the clock reads 1000 to 1003 *)
Definition first : service.Env :=
  service.mkEnv None 1000%Z 1000%Z 0x0123456789abcdef0123456789abcdef%N None
                1001%Z 1002%Z None 1003%Z false 0.

(** a call one second later, with a cancelled context *)
Definition soon : service.Env :=
  service.mkEnv None 1000001000%Z 1000001000%Z
                0x11111111222233334444555555555555%N None
                1000001001%Z 1000001002%Z None 1000001003%Z true 1.

(** a call at the very instant the record expires *)
Definition late : service.Env :=
  service.mkEnv None 600000001001%Z 600000001001%Z
                0x11111111222233334444555555555555%N None
                600000001002%Z 600000001003%Z None 600000001004%Z false 0.

(** a call whose INSERT and upsert both fail *)
Definition broken : service.Env :=
  service.mkEnv (Some (ErrOther "driver: bad connection")) 1000%Z 1000%Z
                0x0123456789abcdef0123456789abcdef%N
                (Some (ErrOther "driver: bad connection"))
                1001%Z 1002%Z (Some (ErrOther "driver: bad connection"))
                1003%Z false 0.

(** a call whose lookup and upsert fail while the INSERT succeeds *)
Definition degraded : service.Env :=
  service.mkEnv (Some (ErrOther "driver: bad connection")) 1000%Z 1000%Z
                0x0123456789abcdef0123456789abcdef%N None
                1001%Z 1002%Z (Some (ErrOther "driver: bad connection"))
                1003%Z false 0.

Definition path : string := "/orders".
Definition method : string := "POST".

Definition empty : World := start 1.

Definition order : Order.t :=
  Order.mk "01234567-89ab-cdef-0123-456789abcdef" "c1" "p1" 2 100.5%float
           "created" 1000%Z 1000%Z 1000%Z.

(** the world after the first call *)
Definition served : World :=
  (service.CreateOrder first path method request empty).2.

(** the record the first call saved *)
Definition record : IdempotencyRow :=
  mkIdempotencyRow
    [("id", jsonobject.JString "01234567-89ab-cdef-0123-456789abcdef");
     ("customer_id", jsonobject.JString "c1");
     ("product_id", jsonobject.JString "p1");
     ("quantity", jsonobject.JInt 2);
     ("total_price", jsonobject.JFloat 100.5%float);
     ("status", jsonobject.JString "created");
     ("order_time", jsonobject.JTime 1000%Z);
     ("created_at", jsonobject.JTime 1000%Z);
     ("updated_at", jsonobject.JTime 1000%Z)]
    600000001001%Z 1002%Z.

(** the body of the request whose price is zero *)
Definition free_body : Bytes :=
  [("customer_id", jsonobject.JString "c1");
   ("product_id", jsonobject.JString "p1");
   ("quantity", jsonobject.JInt 1);
   ("total_price", jsonobject.JInt 0);
   ("idempotency_key", jsonobject.JString "k1")].
End example.

(** ** What the running service keeps

    Names for the invariants of the tables and the channel, and for
    what the worker has done with the events. *)

Section kept.
Context {J : JSON}.

(** a row of [orders] as the order store writes it: keyed by its own
    identifier of 36 characters, status "created", never updated *)
Definition row_as_created (id : string) (o : Order.t) : Prop :=
  Order.ID o = id
  ∧ String.length id = 36
  ∧ Order.Status o = "created"
  ∧ Order.UpdatedAt o = Order.CreatedAt o.

Definition orders_as_created (d : Database) : Prop :=
  ∀ (id : string) (o : Order.t), orders d !! id = Some o → row_as_created id o.

(** Two values of one order that differ at most in what the columns
    [total_price DECIMAL(10, 2)] and [order_time], [created_at],
    [updated_at TIMESTAMP] keep of a Go [float64] and [time.Time]:
    they agree on the identifier, the customer, the product, the
    quantity and the status.  A row read back from [orders] is
    compared with the value in the program's memory this far and no
    further. *)
Definition same_but_rounded (a b : Order.t) : Prop :=
  Order.ID a = Order.ID b
  ∧ Order.CustomerID a = Order.CustomerID b
  ∧ Order.ProductID a = Order.ProductID b
  ∧ Order.Quantity a = Order.Quantity b
  ∧ Order.Status a = Order.Status b.


(** every queued event describes a row of [orders] *)
Definition events_backed (w : World) : Prop :=
  ∀ ev : OrderCreatedEvent.t,
    ev ∈ channel.buf (eventChan w) →
    ∃ o : Order.t,
      orders (db w) !! OrderCreatedEvent.OrderID ev = Some o
      ∧ same_but_rounded (events.ToOrder ev) o.

End kept.

(** the variables [LoadConfig] reads *)
Definition config_variables : list string :=
  ["SERVER_PORT"; "DB_HOST"; "DB_PORT"; "DB_USER"; "DB_PASSWORD"; "DB_NAME";
   "DB_SSLMODE"; "LOG_LEVEL"; "OTEL_ENABLED"; "EVENT_QUEUE_SIZE"; "HOSTNAME"].

(** a decimal digit *)
Definition is_digit (c : ascii) : bool :=
  (48 <=? nat_of_ascii c)%nat && (nat_of_ascii c <=? 57)%nat.

(** ** The idempotency store as first written

    [service/order_service.go] and the second copy of the repository
    keep the earlier design: [idempotency_keys] maps a key to the order
    it created (migration V1 as first written: key PRIMARY KEY, order_id
    REFERENCES orders(id)), with no endpoint, no saved response and no
    expiry.  [CreateOrder] and [GetOrderByID] of the repository, the
    select that emits the event and the worker are the same code as
    above and are used as they are; the table of keys is kept beside
    the world they run in. *)

Module legacy.
Section legacy.
Context {J : JSON}.

(** the other columns of a row of the first [idempotency_keys] *)
Record KeyRow : Type := mkKeyRow {
  order_id : string;
  created_at : time.Time;
}.

Record Store : Type := mkStore {
  world : World;                 (* [orders], the channel, the log *)
  keys : gmap string KeyRow;     (* the first [idempotency_keys] *)
}.

(** a Go function of this version *)
Definition L (A : Type) : Type := Store → A * Store.

(** code shared with the later version runs on [world] *)
Definition lift {A : Type} (m : M A) : L A :=
  λ s, let (a, w) := m (world s) in (a, mkStore w (keys s)).

Definition foreign_key : error :=
  ErrOther "pq: insert or update on table violates foreign key constraint".

(** [SELECT o.id, ... FROM orders o
     INNER JOIN idempotency_keys ik ON o.id = ik.order_id
     WHERE ik.key = $1], scanned into an Order *)
Definition SelectOrderByKey (failure : option error) (key : string)
    (s : Store) : Order.t + error :=
  match failure with
  | Some e => inr e
  | None =>
      match keys s !! key with
      | Some ik =>
          match orders (db (world s)) !! order_id ik with
          | Some row => inl row
          | None => inr sql_ErrNoRows
          end
      | None => inr sql_ErrNoRows
      end
  end.

(** [INSERT INTO idempotency_keys (key, order_id, created_at)
     VALUES ($1, $2, $3) ON CONFLICT (key) DO NOTHING] *)
Definition InsertKey (failure : option error) (key orderID : string)
    (now : time.Time) (s : Store) : option error * gmap string KeyRow :=
  match failure with
  | Some e => (Some e, keys s)
  | None =>
      match keys s !! key with
      | Some _ => (None, keys s)
      | None =>
          match orders (db (world s)) !! orderID with
          | Some _ => (None, <[key := mkKeyRow orderID now]> (keys s))
          | None => (Some foreign_key, keys s)
          end
      end
  end.

(** [GetOrderByIdempotencyKey(ctx, key)] *)
Definition GetOrderByIdempotencyKey (failure : option error) (key : string)
    : L (option Order.t * option error) :=
  λ s,
    match SelectOrderByKey failure key s with
    | inl order => ((Some order, None), s)
    | inr err =>
        if decide (err = sql_ErrNoRows) then ((None, Some ErrOrderNotFound), s)
        else
          lift (logger zap.ErrorLevel "Failed to get order by idempotency key"
                  [zap.Error err; zap.String_ "idempotency_key" key] ;;;
                ret (None, Some err)) s
    end.

(** [StoreIdempotencyKey(ctx, key, orderID)]; [Now] is its reading of
    the clock *)
Definition StoreIdempotencyKey (Now : time.Time) (failure : option error)
    (key orderID : string) : L (option error) :=
  λ s,
    let (err, keys') := InsertKey failure key orderID Now s in
    match err with
    | Some e =>
        lift (logger zap.ErrorLevel "Failed to store idempotency key"
                [zap.Error e; zap.String_ "idempotency_key" key;
                 zap.String_ "order_id" orderID] ;;;
              ret (Some e)) s
    | None => (None, mkStore (world s) keys')
    end.

(** [CreateOrder(ctx, req)] of [order_service.go].  Of [env] it reads
    what the later version reads, but for [NOW] and [Now_validTo]:
    [lookup_failure] is the outcome of the join, [Now_createdAt] the
    clock in [StoreIdempotencyKey] and [upsert_failure] the outcome of
    its INSERT. *)
Definition CreateOrder (env : service.Env) (req : CreateOrderRequest.t)
    : L (outcome (option Order.t * option error)) :=
  λ s,
    let (r, s) :=
      GetOrderByIdempotencyKey (service.lookup_failure env)
        (CreateOrderRequest.IdempotencyKey req) s in
    match r with
    | (Some existingOrder, None) =>
        lift (logger zap.InfoLevel "Order already exists for idempotency key"
                [zap.String_ "idempotency_key"
                   (CreateOrderRequest.IdempotencyKey req);
                 zap.String_ "order_id" (Order.ID existingOrder)] ;;;
              ret (Returns (Some existingOrder, None))) s
    | _ =>
        let (r, s) :=
          lift (repository.CreateOrder (service.Now_create env)
                  (service.New env) (service.insert_failure env)
                  (service.draft req)) s in
        let (order, err) := r in
        match err with
        | Some e => (Returns (None, Some e), s)
        | None =>
            let (err, s) :=
              StoreIdempotencyKey (service.Now_createdAt env)
                (service.upsert_failure env)
                (CreateOrderRequest.IdempotencyKey req) (Order.ID order) s in
            let (_, s) :=
              match err with
              | Some e =>
                  lift (logger zap.WarnLevel "Failed to store idempotency key"
                          [zap.Error e;
                           zap.String_ "idempotency_key"
                             (CreateOrderRequest.IdempotencyKey req)]) s
              | None => (tt, s)
              end in
            let (sent, s) :=
              lift (service.emit env order (service.eventOf env order)) s in
            match sent with
            | Returns _ => (Returns (Some order, None), s)
            | Blocks => (Blocks, s)
            | Panics => (Panics, s)
            end
        end
    end.

(** [GetOrderByID(ctx, id)] of [order_service.go] *)
Definition GetOrderByID (failure : option error) (id : string)
    : L (option Order.t * option error) :=
  lift (repository.GetOrderByID failure id).

(** the service on migrated, empty tables *)
Definition initial (size : nat) : Store := mkStore (start size) ∅.

End legacy.
End legacy.

Section legacy_kept.
Context {J : JSON}.

(** the foreign key of the first [idempotency_keys]: every key names a
    row of [orders] *)
Definition keys_backed (s : legacy.Store) : Prop :=
  ∀ (k : string) (ik : legacy.KeyRow),
    legacy.keys s !! k = Some ik →
    is_Some (orders (db (legacy.world s)) !! legacy.order_id ik).

(** the log line of a hit *)
Definition exists_entry (key : string) (o : Order.t) : zap.Entry :=
  zap.mk zap.InfoLevel "Order already exists for idempotency key"
    [zap.String_ "idempotency_key" key; zap.String_ "order_id" (Order.ID o)].
End legacy_kept.

(** ** More of the example run *)

Module example_more.
#[local] Existing Instance jsonobject.codec.
Import example.

(** a call whose lookup fails and that draws a new identifier *)
Definition blind : service.Env :=
  service.mkEnv (Some (ErrOther "driver: bad connection")) 2000%Z 2000%Z
                0x11111111222233334444555555555555%N None
                2001%Z 2002%Z None 2003%Z false 0.

(** the world after a first call that lost its idempotency record *)
Definition unrecorded : World :=
  (service.CreateOrder degraded path method request empty).2.

(** the first version of the service after its first call *)
Definition legacy_served : legacy.Store :=
  (legacy.CreateOrder first request (legacy.initial 1)).2.

(** the key row that call wrote *)
Definition legacy_row : legacy.KeyRow :=
  legacy.mkKeyRow "01234567-89ab-cdef-0123-456789abcdef" 1002%Z.

(** an environment with one variable set to the empty string and one
    that [LoadConfig] does not read *)
Definition environ : gmap string string :=
  <["DB_HOST" := EmptyString]> (<["PATH" := "/bin"]> ∅).
End example_more.

(** * Properties *)

Set Warnings "-clear-no-such-hyp".

(** ** Basic facts about the pieces *)

Ltac unfold_M :=
  unfold bind, ret, getDB, putDB, getChan, putChan, logger in *.

Section basics.
Context {J : JSON}.

Lemma select_default_Some {C : Type} (ready : list C) (d : C) (pick : nat) :
  ∃ c, channel.select ready (Some d) pick = Some c.
Proof.
  unfold channel.select. destruct ready as [|c0 ready]; [eauto|].
  apply lookup_lt_is_Some_2, Nat.mod_upper_bound. simpl. lia.
Qed.

Lemma select_ready {C : Type} (ready : list C) (d : option C) (pick : nat)
    (c : C) :
  channel.select ready d pick = Some c →
  c ∈ ready ∨ (ready = [] ∧ d = Some c).
Proof.
  unfold channel.select. destruct ready as [|c0 ready]; [by right|].
  intros H. left. eapply list_elem_of_lookup_2, H.
Qed.

Lemma select_nonempty {C : Type} (ready : list C) (d : option C)
    (pick : nat) :
  ready ≠ [] → ∃ c, channel.select ready d pick = Some c ∧ c ∈ ready.
Proof.
  intros Hne. destruct ready as [|c0 ready]; [done|].
  destruct (lookup_lt_is_Some_2 (c0 :: ready)
              (pick mod length (c0 :: ready))) as [c Hc].
  { apply Nat.mod_upper_bound. simpl. lia. }
  exists c. split; [exact Hc|]. eapply list_elem_of_lookup_2, Hc.
Qed.

Lemma InsertOrder_error failure row d e d' :
  sql.InsertOrder failure row d = (Some e, d') → d' = d.
Proof.
  unfold sql.InsertOrder. destruct failure; [congruence|].
  destruct (orders d !! Order.ID row); congruence.
Qed.

Lemma InsertOrder_ok failure row d d' :
  sql.InsertOrder failure row d = (None, d') →
  failure = None ∧ orders d !! Order.ID row = None
  ∧ d' = mkDatabase (<[Order.ID row := row]> (orders d)) (idempotency_keys d).
Proof.
  unfold sql.InsertOrder. destruct failure; [congruence|].
  destruct (orders d !! Order.ID row); [congruence|].
  intros [= <-]. done.
Qed.

Lemma repository_CreateOrder_eq Now New failure order w :
  repository.CreateOrder Now New failure order w =
    let o := repository.populate Now New order in
    let (err, d') := sql.InsertOrder failure o (db w) in
    ((o, err),
     mkWorld d' (eventChan w) (log w ++ [CreateOrder_entry o err])).
Proof.
  unfold repository.CreateOrder. unfold_M. simpl.
  destruct (sql.InsertOrder _ _ _) as [[e|] d'] eqn:Hins; simpl; [|done].
  by rewrite (InsertOrder_error _ _ _ _ _ Hins).
Qed.

(** step 1 changes neither table nor the channel; its result is the
    decoded saved response, when there is one that decodes *)
Lemma checkIdempotency_eq env ep sch req w :
  ∃ l,
    service.checkIdempotency env ep sch req w =
      (replay env ep sch req w,
       mkWorld (db w) (eventChan w) (log w ++ l)).
Proof.
  unfold service.checkIdempotency, repository.GetIdempotencyResponse,
    replay, lookup.
  unfold_M. simpl.
  destruct (sql.SelectIdempotencyResponse _ _ _ _) as [b|e]; simpl.
  - destruct (Unmarshal b); simpl; eexists; rewrite <- ?app_assoc; done.
  - destruct (decide (e = sql_ErrNoRows)); simpl.
    + exists []. rewrite app_nil_r. by destruct w.
    + destruct (decide (e = ErrIdempotencyNotFound)); simpl;
        eexists; rewrite <- ?app_assoc; done.
Qed.

Lemma UpsertIdempotencyResponse_error failure k b validTo createdAt d e d' :
  sql.UpsertIdempotencyResponse failure k b validTo createdAt d
    = (Some e, d') → d' = d.
Proof. unfold sql.UpsertIdempotencyResponse. destruct failure; congruence. Qed.

Lemma StoreIdempotencyResponse_eq env ep sch key order w :
  ∃ l,
    repository.StoreIdempotencyResponse
      (service.Now_validTo env) (service.Now_createdAt env)
      (service.upsert_failure env) ep sch key order
      (10 * time.Minute)%Z w =
    let (err, d') := stored env ep sch key order (db w) in
    (err, mkWorld d' (eventChan w) (log w ++ l)).
Proof.
  unfold repository.StoreIdempotencyResponse, stored. unfold_M. simpl.
  destruct (Marshal order) as [b|e]; simpl; [|eauto].
  destruct (sql.UpsertIdempotencyResponse _ _ _ _ _ _) as [[e|] d'] eqn:Hup;
    simpl.
  - rewrite (UpsertIdempotencyResponse_error _ _ _ _ _ _ _ _ Hup). eauto.
  - exists []. by rewrite app_nil_r.
Qed.

Lemma emit_eq env order event w :
  ∃ c,
    enabled c env (eventChan w) ∧
    service.emit env order event w =
      (Returns c,
       mkWorld (db w) (emitted c event (eventChan w))
               (log w ++ [emit_entry c order])).
Proof.
  unfold service.emit. unfold_M. simpl.
  destruct (select_default_Some (service.ready env (eventChan w))
              service.CaseDefault (service.pick env)) as [c Hc].
  rewrite Hc. exists c. split.
  - apply select_ready in Hc as [Hin|[Hnil [= <-]]].
    + unfold service.ready in Hin. apply elem_of_app in Hin as [Hin|Hin].
      * destruct (channel.can_send (eventChan w)) eqn:Hs;
          [|by apply elem_of_nil in Hin].
        apply list_elem_of_singleton in Hin as ->. exact Hs.
      * destruct (service.ctx_Done env) eqn:Hd;
          [|by apply elem_of_nil in Hin].
        apply list_elem_of_singleton in Hin as ->. exact Hd.
    + unfold service.ready in Hnil. simpl.
      destruct (channel.can_send (eventChan w)),
               (service.ctx_Done env); done.
  - by destruct c.
Qed.
End basics.

(** ** The three ways a call of [CreateOrder] ends *)

Section service_facts.
Context {J : JSON}.

Lemma service_CreateOrder_hit env ep sch req w o :
  replay env ep sch req w = Some o →
  service.CreateOrder env ep sch req w =
    (Returns (Some o, None),
     mkWorld (db w) (eventChan w)
       (log w ++ [hit_entry ep sch (CreateOrderRequest.IdempotencyKey req)])).
Proof.
  unfold replay, lookup, service.CreateOrder, service.checkIdempotency,
    repository.GetIdempotencyResponse.
  unfold_M. simpl.
  destruct (sql.SelectIdempotencyResponse _ _ _ _) as [b|e]; [|done].
  simpl. destruct (Unmarshal b) as [o'|e]; [|done].
  by intros [= ->].
Qed.

Lemma service_CreateOrder_insert_failed env ep sch req w e d' :
  replay env ep sch req w = None →
  sql.InsertOrder (service.insert_failure env) (created env req) (db w)
    = (Some e, d') →
  ∃ l, service.CreateOrder env ep sch req w =
         (Returns (None, Some e), mkWorld (db w) (eventChan w) (log w ++ l)).
Proof.
  intros Hr Hins. destruct (checkIdempotency_eq env ep sch req w) as [l Hl].
  rewrite Hr in Hl.
  unfold service.CreateOrder, bind. rewrite Hl.
  rewrite repository_CreateOrder_eq. cbn [db eventChan log].
  fold (created env req). cbv zeta. rewrite Hins.
  rewrite (InsertOrder_error _ _ _ _ _ Hins).
  unfold ret. rewrite <- app_assoc. eauto.
Qed.

Lemma service_CreateOrder_created env ep sch req w d1 :
  replay env ep sch req w = None →
  sql.InsertOrder (service.insert_failure env) (created env req) (db w)
    = (None, d1) →
  let o := created env req in
  let key := CreateOrderRequest.IdempotencyKey req in
  ∃ c l,
    enabled c env (eventChan w) ∧
    service.CreateOrder env ep sch req w =
      (Returns (Some o, None),
       mkWorld (stored env ep sch key o d1).2
               (emitted c (service.eventOf env o) (eventChan w))
               (log w ++ l)) ∧
    emit_entry c o ∈ l ∧
    (∀ e, (stored env ep sch key o d1).1 = Some e →
          store_warning ep sch key e ∈ l).
Proof.
  intros Hr Hins o key. subst o.
  destruct (checkIdempotency_eq env ep sch req w) as [l1 Hl].
  rewrite Hr in Hl.
  unfold service.CreateOrder, bind. rewrite Hl.
  rewrite repository_CreateOrder_eq. cbn [db eventChan log].
  fold (created env req). cbv zeta. rewrite Hins.
  match goal with
  | |- context [repository.StoreIdempotencyResponse _ _ _ _ _ _ _ _ ?w2] =>
      destruct (StoreIdempotencyResponse_eq env ep sch key (created env req) w2)
        as [l3 H3]
  end.
  fold key. rewrite H3. cbn [db eventChan log].
  destruct (stored env ep sch key (created env req) d1) as [err d2] eqn:Hst.
  match goal with
  | |- context [match err with Some _ => _ | None => _ end ?w'] =>
      set (w3 := w')
  end.
  set (warn := match err with Some e => [store_warning ep sch key e] | None => [] end).
  assert (Hw : match err with
    | Some e => logger zap.WarnLevel "Failed to store idempotency response"
             [zap.Error e; zap.String_ "endpoint_name" ep;
              zap.String_ "endpoint_scheme" sch;
              zap.String_ "idempotency_key" key]
    | None => ret ()
    end w3 = (tt, mkWorld d2 (eventChan w) (log w3 ++ warn))).
  { subst warn w3. destruct err; unfold logger, ret; simpl; [done|].
    by rewrite app_nil_r. }
  rewrite Hw.
  match goal with
  | |- context [service.emit env ?o ?ev ?w4] =>
      destruct (emit_eq env o ev w4) as (c & Hc & He)
  end.
  rewrite He. cbn [db eventChan log] in *. unfold ret.
  exists c. eexists. split; [exact Hc|]. split.
  - subst w3. cbn [log]. rewrite <- !app_assoc. reflexivity.
  - split.
    + set_solver.
    + intros e [= ->]. subst warn. set_solver.
Qed.
End service_facts.

(** ** Saved responses stay backed by an order row *)

Section invariant.
Context {J : JSON}.

Lemma replay_fresh env ep sch req w :
  idempotency_keys (db w)
    !! (ep, sch, CreateOrderRequest.IdempotencyKey req) = None →
  replay env ep sch req w = None.
Proof.
  intros Hnone. unfold replay, lookup, sql.SelectIdempotencyResponse.
  rewrite Hnone. by destruct (service.lookup_failure env).
Qed.

Lemma replay_expired env ep sch req w row :
  idempotency_keys (db w)
    !! (ep, sch, CreateOrderRequest.IdempotencyKey req) = Some row →
  (valid_to row ≤ service.NOW env)%Z →
  replay env ep sch req w = None.
Proof.
  intros Hrow Hexp. unfold replay, lookup, sql.SelectIdempotencyResponse.
  rewrite Hrow. destruct (service.lookup_failure env); [done|].
  rewrite bool_decide_false; [done|lia].
Qed.

Lemma replay_valid env ep sch req w row o :
  service.lookup_failure env = None →
  idempotency_keys (db w)
    !! (ep, sch, CreateOrderRequest.IdempotencyKey req) = Some row →
  (service.NOW env < valid_to row)%Z →
  Unmarshal (response row) = inl o →
  replay env ep sch req w = Some o.
Proof.
  intros Hf Hrow Hlt Hun. unfold replay, lookup, sql.SelectIdempotencyResponse.
  rewrite Hf, Hrow, bool_decide_true by done. by rewrite Hun.
Qed.

Lemma stored_backed env ep sch key o d :
  responses_backed d → is_Some (orders d !! Order.ID o) →
  responses_backed (stored env ep sch key o d).2.
Proof.
  intros Hb Ho. unfold stored.
  destruct (Marshal o) as [b|e] eqn:Hm; [|done].
  unfold sql.UpsertIdempotencyResponse.
  destruct (service.upsert_failure env); [done|]. simpl.
  intros k row. simpl. rewrite lookup_insert.
  case_decide as Hk.
  - intros [= <-]. exists o. split; [|done].
    by destruct (idempotency_keys d !! (ep, sch, key)).
  - apply Hb.
Qed.

Lemma inserted_backed failure row d d' :
  responses_backed d → sql.InsertOrder failure row d = (None, d') →
  responses_backed d' ∧ orders d' !! Order.ID row = Some row.
Proof.
  intros Hb (_ & Hfresh & ->)%InsertOrder_ok. split.
  - intros k r Hr. simpl in *. destruct (Hb k r Hr) as (o & Hm & Ho).
    exists o. split; [done|]. rewrite lookup_insert_ne; [done|].
    intros Heq. rewrite <- Heq, Hfresh in Ho. by destruct Ho.
  - simpl. apply lookup_insert_eq.
Qed.

Lemma service_CreateOrder_backed env ep sch req w :
  responses_backed (db w) →
  responses_backed (db (service.CreateOrder env ep sch req w).2).
Proof.
  intros Hb. destruct (replay env ep sch req w) as [o|] eqn:Hr.
  { by rewrite (service_CreateOrder_hit _ _ _ _ _ _ Hr). }
  destruct (sql.InsertOrder (service.insert_failure env) (created env req)
              (db w)) as [[e|] d1] eqn:Hins.
  { destruct (service_CreateOrder_insert_failed _ _ _ _ _ _ _ Hr Hins)
      as [l ->]. done. }
  destruct (service_CreateOrder_created _ ep sch _ _ _ Hr Hins)
    as (c & l & _ & -> & _). simpl.
  destruct (inserted_backed _ _ _ _ Hb Hins) as [Hb1 Ho].
  apply stored_backed; [done|]. by rewrite Ho.
Qed.

Lemma handler_CreateOrder_db env path method body w :
  db (handler.CreateOrder env path method body w).2 = db w
  ∨ ∃ req, db (handler.CreateOrder env path method body w).2
           = db (service.CreateOrder env path method req w).2.
Proof.
  unfold handler.CreateOrder.
  destruct (binding.ShouldBindJSON body) as [req [e|]]; [by left|].
  right. exists req. unfold bind.
  destruct (service.CreateOrder env path method req w)
    as [[[[o|] [e|]]| |] w']; done.
Qed.

Lemma GetOrderByID_db failure id w :
  db (service.GetOrderByID failure id w).2 = db w.
Proof.
  unfold service.GetOrderByID, repository.GetOrderByID. unfold_M. simpl.
  destruct (sql.SelectOrder failure id (db w)) as [o|e]; [done|].
  by destruct (decide (e = sql_ErrNoRows)).
Qed.

Lemma iteration_db s w : db (events.iteration s w).2 = db w.
Proof.
  unfold events.iteration, events.processEvent. unfold_M. simpl.
  destruct (channel.select _ _ _) as [[| |]|]; try done.
  by destruct (channel.recv (eventChan w)) as [[ev c']|].
Qed.

Lemma reachable_backed w : reachable w → responses_backed (db w).
Proof.
  induction 1 as [size|env path method body w _ IH|env ep sch req w _ IH
                 |failure id w _ IH|s w _ IH].
  - intros k row Hk. unfold start in Hk. simpl in Hk.
    by rewrite lookup_empty in Hk.
  - destruct (handler_CreateOrder_db env path method body w)
      as [->|[req ->]]; [done|].
    by apply service_CreateOrder_backed.
  - by apply service_CreateOrder_backed.
  - by rewrite GetOrderByID_db.
  - by rewrite iteration_db.
Qed.
End invariant.

(** ** Order creation *)

Section creation.
Context {J : JSON}.

Lemma enqueue_outcome_intro c env event ch :
  enabled c env ch → enqueue_outcome c env event ch (emitted c event ch).
Proof. destruct c; simpl; intuition. Qed.

Lemma stored_orders env ep sch key o d :
  orders (stored env ep sch key o d).2 = orders d.
Proof.
  unfold stored, sql.UpsertIdempotencyResponse.
  destruct (Marshal o); [|done]. by destruct (service.upsert_failure env).
Qed.

(** the hypotheses "step 1 fell through" and "step 2 returned", read
    on the tables *)
Lemma steps_1_2 env ep sch req w w1 w2 o err :
  service.checkIdempotency env ep sch req w = (None, w1) →
  repository.CreateOrder (service.Now_create env) (service.New env)
    (service.insert_failure env) (service.draft req) w1
    = ((o, err), w2) →
  replay env ep sch req w = None ∧ o = created env req ∧
  ∃ d1, sql.InsertOrder (service.insert_failure env) (created env req)
          (db w) = (err, d1)
        ∧ db w2 = d1 ∧ eventChan w2 = eventChan w.
Proof.
  intros H1 H2.
  destruct (checkIdempotency_eq env ep sch req w) as [l Hl].
  rewrite H1 in Hl. injection Hl as Hr ->.
  rewrite repository_CreateOrder_eq in H2. cbn [db eventChan log] in H2.
  cbv zeta in H2. fold (created env req) in H2.
  destruct (sql.InsertOrder _ _ _) as [err' d1] eqn:Hins.
  injection H2 as <- <- <-. cbn [db eventChan]. symmetry in Hr. eauto 10.
Qed.


(** C2. When the call reaches step 2 and the order store's create
    fails, the call returns that error, and neither table nor the
    event channel has changed: no idempotency write, no event. *)
Theorem C2_persist_failure_aborts
    (env : service.Env) (ep sch : string) (req : CreateOrderRequest.t)
    (w w1 w2 : World) (o : Order.t) (e : error) :
  service.checkIdempotency env ep sch req w = (None, w1) →
  repository.CreateOrder (service.Now_create env) (service.New env)
    (service.insert_failure env) (service.draft req) w1
    = ((o, Some e), w2) →
  service.CreateOrder env ep sch req w = (Returns (None, Some e), w2)
  ∧ db w2 = db w
  ∧ eventChan w2 = eventChan w.
Proof.
  intros H1 H2. split.
  { unfold service.CreateOrder, bind. by rewrite H1, H2. }
  destruct (checkIdempotency_eq env ep sch req w) as [l Hl].
  rewrite H1 in Hl. injection Hl as _ ->.
  rewrite repository_CreateOrder_eq in H2. cbn [db eventChan log] in H2.
  cbv zeta in H2.
  destruct (sql.InsertOrder _ _ _) as [err d'] eqn:Hins.
  injection H2 as _ -> <-.
  by rewrite (InsertOrder_error _ _ _ _ _ Hins).
Qed.

(** C6. The select of step 4 always returns, having taken exactly one
    of its three cases: the send (the event joins the channel), the
    cancelled context (the channel is untouched) or the default (the
    channel is untouched; it could not take the event and the context
    was live).  Whichever is taken, a call whose order was persisted
    returns that order without error. *)
Theorem C6_enqueue_outcomes
    (env : service.Env) (ep sch : string) (req : CreateOrderRequest.t)
    (w : World) :
  (∀ (order : Order.t) (event : OrderCreatedEvent.t) (w0 : World),
     ∃ (c : service.Case) (w' : World),
       service.emit env order event w0 = (Returns c, w')
       ∧ enqueue_outcome c env event (eventChan w0) (eventChan w')
       ∧ db w' = db w0)
  ∧ (∀ (w1 w2 : World) (o : Order.t),
       service.checkIdempotency env ep sch req w = (None, w1) →
       repository.CreateOrder (service.Now_create env) (service.New env)
         (service.insert_failure env) (service.draft req) w1
         = ((o, None), w2) →
       ∃ (c : service.Case) (w' : World),
         service.CreateOrder env ep sch req w = (Returns (Some o, None), w')
         ∧ orders (db w') !! Order.ID o = Some o
         ∧ enqueue_outcome c env (service.eventOf env o)
             (eventChan w) (eventChan w')).
Proof.
  split.
  - intros order event w0.
    destruct (emit_eq env order event w0) as (c & Hc & He).
    eexists c, _. split; [exact He|]. split; [|done].
    by apply enqueue_outcome_intro.
  - intros w1 w2 o H1 H2.
    destruct (steps_1_2 _ _ _ _ _ _ _ _ _ H1 H2)
      as (Hr & -> & d1 & Hins & _ & _).
    destruct (service_CreateOrder_created _ ep sch _ _ _ Hr Hins)
      as (c & l & Hc & Hcall & _).
    eexists c, _. split; [exact Hcall|]. cbn [db eventChan]. split.
    + rewrite stored_orders.
      apply InsertOrder_ok in Hins as (_ & _ & ->). apply lookup_insert_eq.
    + by apply enqueue_outcome_intro.
Qed.

(** C7. A failure of the idempotency store never fails the call: a
    failed lookup and a saved response that does not decode both make
    step 1 fall through; once the order is persisted the call returns
    it whatever step 3 does, and a failed step 3 leaves its warning in
    the log; the only error the call can return is the one of the
    INSERT into orders. *)
Theorem C7_idempotency_failures_are_not_fatal
    (env : service.Env) (ep sch : string) (req : CreateOrderRequest.t)
    (w : World) :
  let key := CreateOrderRequest.IdempotencyKey req in
  (∀ e : error,
     service.lookup_failure env = Some e →
     (service.checkIdempotency env ep sch req w).1 = None)
  ∧ (∀ (b : Bytes) (e : error),
       lookup env ep sch req w = inl b → Unmarshal b = inr e →
       (service.checkIdempotency env ep sch req w).1 = None)
  ∧ (∀ (w1 w2 : World) (o : Order.t),
       service.checkIdempotency env ep sch req w = (None, w1) →
       repository.CreateOrder (service.Now_create env) (service.New env)
         (service.insert_failure env) (service.draft req) w1
         = ((o, None), w2) →
       ∃ w' : World,
         service.CreateOrder env ep sch req w = (Returns (Some o, None), w')
         ∧ orders (db w') !! Order.ID o = Some o
         ∧ ∀ e : error,
             (repository.StoreIdempotencyResponse
                (service.Now_validTo env) (service.Now_createdAt env)
                (service.upsert_failure env) ep sch key o
                (10 * time.Minute)%Z w2).1 = Some e →
             store_warning ep sch key e ∈ log w')
  ∧ (∀ (e : error) (w' : World),
       service.CreateOrder env ep sch req w = (Returns (None, Some e), w') →
       (sql.InsertOrder (service.insert_failure env) (created env req)
          (db w)).1 = Some e).
Proof.
  intros key.
  destruct (checkIdempotency_eq env ep sch req w) as [l1 Hl].
  split; [|split; [|split]].
  - intros e He. rewrite Hl. cbn [fst].
    unfold replay, lookup, sql.SelectIdempotencyResponse. by rewrite He.
  - intros b e Hb He. rewrite Hl. cbn [fst]. unfold replay.
    by rewrite Hb, He.
  - intros w1 w2 o H1 H2.
    destruct (steps_1_2 _ _ _ _ _ _ _ _ _ H1 H2)
      as (Hr & -> & d1 & Hins & Hd & _).
    destruct (service_CreateOrder_created _ ep sch _ _ _ Hr Hins)
      as (c & l & _ & Hcall & _ & Hwarn).
    eexists. split; [exact Hcall|]. cbn [db log]. split.
    + rewrite stored_orders.
      apply InsertOrder_ok in Hins as (_ & _ & ->). apply lookup_insert_eq.
    + intros e He. apply elem_of_app. right. apply Hwarn.
      destruct (StoreIdempotencyResponse_eq env ep sch key
                  (created env req) w2) as [l3 H3].
      rewrite H3, Hd in He. unfold key in He.
      by destruct (stored env ep sch _ (created env req) d1).
  - intros e w' Hcall.
    destruct (replay env ep sch req w) as [o|] eqn:Hr.
    { rewrite (service_CreateOrder_hit _ _ _ _ _ _ Hr) in Hcall.
      discriminate. }
    destruct (sql.InsertOrder (service.insert_failure env) (created env req)
                (db w)) as [[e'|] d1] eqn:Hins.
    + destruct (service_CreateOrder_insert_failed _ _ _ _ _ _ _ Hr Hins)
        as [l Hl']. rewrite Hl' in Hcall. by injection Hcall as ->.
    + destruct (service_CreateOrder_created _ ep sch _ _ _ Hr Hins)
        as (c & l & _ & Hcall' & _). rewrite Hcall' in Hcall. discriminate.
Qed.

(** C9. On a hit the call is a function of the cached record alone:
    two requests that share the key triple get the same order, and
    with the same surroundings the whole call (result, tables,
    channel, log) is the same whatever the other request fields are. *)
Theorem C9_hit_ignores_request_fields
    (env1 env2 : service.Env) (ep sch : string)
    (req1 req2 : CreateOrderRequest.t) (w : World)
    (row : IdempotencyRow) (o : Order.t) :
  let key := CreateOrderRequest.IdempotencyKey req1 in
  CreateOrderRequest.IdempotencyKey req2 = key →
  idempotency_keys (db w) !! (ep, sch, key) = Some row →
  Unmarshal (response row) = inl o →
  service.lookup_failure env1 = None →
  service.lookup_failure env2 = None →
  (service.NOW env1 < valid_to row)%Z →
  (service.NOW env2 < valid_to row)%Z →
  let w1 := (service.CreateOrder env1 ep sch req1 w).2 in
  service.CreateOrder env1 ep sch req1 w = (Returns (Some o, None), w1)
  ∧ service.CreateOrder env2 ep sch req2 w1
    = (Returns (Some o, None),
       mkWorld (db w) (eventChan w)
               (log w ++ [hit_entry ep sch key; hit_entry ep sch key]))
  ∧ service.CreateOrder env2 ep sch req2 w
    = service.CreateOrder env2 ep sch req1 w.
Proof.
  intros key Hkey Hrow Hun Hf1 Hf2 Hlt1 Hlt2 w1.
  assert (Hr1 : replay env1 ep sch req1 w = Some o)
    by by eapply replay_valid.
  assert (Hr2 : ∀ w', db w' = db w → replay env2 ep sch req2 w' = Some o).
  { intros w' Hdb. eapply replay_valid; [done| |done|done].
    by rewrite Hkey, Hdb. }
  assert (Hr3 : replay env2 ep sch req1 w = Some o)
    by by eapply replay_valid.
  subst w1. rewrite (service_CreateOrder_hit _ _ _ _ _ _ Hr1). cbn [snd].
  split; [done|]. split.
  - erewrite service_CreateOrder_hit by (by apply Hr2).
    cbn [db eventChan log]. by rewrite Hkey, <- app_assoc.
  - rewrite (service_CreateOrder_hit _ _ _ _ _ _ (Hr2 _ eq_refl)).
    rewrite (service_CreateOrder_hit _ _ _ _ _ _ Hr3). by rewrite Hkey.
Qed.

(** C5. A record whose expiry is not after the database's clock is,
    to every lookup, as if it were absent: the lookup answers what it
    answers without the record, which is not-found when the query
    itself succeeds.  A call that replays such a key triple goes on
    to create: when its insert succeeds it returns the new order,
    whose identifier was in no row before and differs from the one in
    the stale response. *)
Theorem C5_expired_record_is_absent `{!JSONLaws J}
    (env : service.Env) (ep sch : string) (req : CreateOrderRequest.t)
    (w : World) (row : IdempotencyRow) :
  let key := CreateOrderRequest.IdempotencyKey req in
  reachable w →
  idempotency_keys (db w) !! (ep, sch, key) = Some row →
  (valid_to row ≤ service.NOW env)%Z →
  (∀ failure : option error,
     (repository.GetIdempotencyResponse failure (service.NOW env)
        ep sch key w).1
     = (repository.GetIdempotencyResponse failure (service.NOW env)
          ep sch key (forget (ep, sch, key) w)).1)
  ∧ (repository.GetIdempotencyResponse None (service.NOW env)
       ep sch key w).1 = (None, Some ErrIdempotencyNotFound)
  ∧ (∀ d1 : Database,
       sql.InsertOrder (service.insert_failure env) (created env req) (db w)
         = (None, d1) →
       ∃ w' : World,
         service.CreateOrder env ep sch req w
           = (Returns (Some (created env req), None), w')
         ∧ orders (db w) !! Order.ID (created env req) = None
         ∧ orders (db w') !! Order.ID (created env req)
           = Some (created env req)
         ∧ ∀ stale : Order.t,
             Unmarshal (response row) = inl stale →
             Order.ID (created env req) ≠ Order.ID stale).
Proof.
  intros key Hreach Hrow Hexp. split; [|split].
  - intros failure.
    unfold repository.GetIdempotencyResponse. unfold_M.
    cbn [db forget]. unfold sql.SelectIdempotencyResponse.
    cbn [idempotency_keys]. rewrite Hrow, lookup_delete_eq.
    destruct failure as [e|];
      [by destruct (decide (e = sql_ErrNoRows))|].
    rewrite bool_decide_false; [done|lia].
  - unfold repository.GetIdempotencyResponse. unfold_M.
    unfold sql.SelectIdempotencyResponse. rewrite Hrow.
    rewrite bool_decide_false; [done|lia].
  - intros d1 Hins.
    pose proof (replay_expired env ep sch req w row Hrow Hexp) as Hr.
    destruct (service_CreateOrder_created _ ep sch _ _ _ Hr Hins)
      as (c & l & _ & Hcall & _).
    eexists. split; [exact Hcall|]. cbn [db].
    pose proof Hins as (_ & Hfresh & ->)%InsertOrder_ok.
    split; [done|]. split.
    + rewrite stored_orders. apply lookup_insert_eq.
    + intros stale Hstale Heq.
      destruct (reachable_backed w Hreach _ _ Hrow) as (o & Hm & Ho).
      apply Unmarshal_Marshal in Hm. rewrite Hm in Hstale.
      injection Hstale as <-. rewrite <- Heq, Hfresh in Ho. by destruct Ho.
Qed.
End creation.

(** ** The idempotency upsert *)

Section upsert.
Context {J : JSON}.

(** C10. Storing a response over an existing record of the same key
    triple keeps the record's [created_at]: the record is either left
    as it was (the call failed) or has the new response and expiry
    and the old creation time; the other records and the orders are
    untouched. *)
Theorem C10_upsert_keeps_created_at
    (Now1 Now2 : time.Time) (failure : option error)
    (ep sch key : string) (order : Order.t)
    (validityDuration : time.Duration) (w : World) (old : IdempotencyRow) :
  idempotency_keys (db w) !! (ep, sch, key) = Some old →
  let call :=
    repository.StoreIdempotencyResponse Now1 Now2 failure ep sch key order
      validityDuration w in
  (∃ row : IdempotencyRow,
     idempotency_keys (db call.2) !! (ep, sch, key) = Some row
     ∧ created_at row = created_at old
     ∧ (row = old ∧ is_Some call.1
        ∨ Marshal order = inl (response row)
          ∧ valid_to row = time.Add Now1 validityDuration
          ∧ call.1 = None))
  ∧ (∀ b : Bytes,
       failure = None → Marshal order = inl b →
       call.1 = None
       ∧ idempotency_keys (db call.2) !! (ep, sch, key)
         = Some (mkIdempotencyRow b (time.Add Now1 validityDuration)
                   (created_at old)))
  ∧ (∀ k : IdempotencyKey,
       k ≠ (ep, sch, key) →
       idempotency_keys (db call.2) !! k = idempotency_keys (db w) !! k)
  ∧ orders (db call.2) = orders (db w).
Proof.
  intros Hold call. subst call.
  unfold repository.StoreIdempotencyResponse. unfold_M.
  destruct (Marshal order) as [b|e] eqn:Hm; cbn [fst snd db].
  2:{ split; [exists old; eauto 10|]. split; [done|]. done. }
  unfold sql.UpsertIdempotencyResponse. rewrite Hold.
  destruct failure as [e|]; cbn [fst snd db idempotency_keys orders].
  { split; [exists old; eauto 10|]. split; [done|]. done. }
  rewrite lookup_insert_eq. split.
  { eexists. split; [done|]. split; [done|]. right. done. }
  split.
  { intros b' _ [= <-]. done. }
  split; [|done].
  intros k Hk. by rewrite lookup_insert_ne.
Qed.
End upsert.

(** ** Request validation and the order store's create *)

Section validation.

Lemma binding_CustomerID :
  validator.parseRules (reflect.Get tags.CustomerID "binding")
  = Some [validator.required].
Proof. reflexivity. Qed.

Lemma binding_ProductID :
  validator.parseRules (reflect.Get tags.ProductID "binding")
  = Some [validator.required].
Proof. reflexivity. Qed.

Lemma binding_Quantity :
  validator.parseRules (reflect.Get tags.Quantity "binding")
  = Some [validator.required; validator.min 1].
Proof. reflexivity. Qed.

Lemma binding_TotalPrice :
  validator.parseRules (reflect.Get tags.TotalPrice "binding")
  = Some [validator.required; validator.min 0].
Proof. reflexivity. Qed.

(** the unclosed quote hides the [binding] key of [OrderTime] *)
Lemma binding_OrderTime :
  reflect.Lookup tags.OrderTime "binding" = None
  ∧ validator.parseRules (reflect.Get tags.OrderTime "binding") = Some [].
Proof. split; reflexivity. Qed.

Lemma validateField_OrderTime (v : validator.Value) :
  validator.validateField "CreateOrderRequest"
    ("OrderTime", tags.OrderTime, v) = [].
Proof.
  unfold validator.validateField. by rewrite (proj2 binding_OrderTime).
Qed.

Lemma binding_IdempotencyKey :
  validator.parseRules (reflect.Get tags.IdempotencyKey "binding")
  = Some [validator.required].
Proof. reflexivity. Qed.

Lemma String_eqb_empty s : String.eqb s EmptyString = false ↔ s ≠ EmptyString.
Proof. destruct s; simpl; split; congruence. Qed.

Lemma validate_accepts req : binding.validate req = None ↔ valid req.
Proof.
  unfold binding.validate, validator.Struct, binding.fields, valid.
  cbn [fmap list_fmap]. unfold validator.validateField.
  rewrite binding_CustomerID, binding_ProductID, binding_Quantity,
    binding_TotalPrice, (proj2 binding_OrderTime), binding_IdempotencyKey.
  cbn [validator.firstFailure validator.check validator.hasValue
       validator.isGte].
  change (PrimFloat.of_uint63 (Uint63.of_Z 0)) with 0%float.
  destruct req as [c p q t ot k]. cbn [CreateOrderRequest.CustomerID
    CreateOrderRequest.ProductID CreateOrderRequest.Quantity
    CreateOrderRequest.TotalPrice CreateOrderRequest.OrderTime
    CreateOrderRequest.IdempotencyKey].
  rewrite <- !String_eqb_empty.
  destruct (String.eqb c EmptyString), (String.eqb p EmptyString),
    (String.eqb k EmptyString), (PrimFloat.eqb t 0), (PrimFloat.leb 0 t),
    (Z.eqb_spec q 0), (Z.leb_spec 1 q); simpl;
    split; try discriminate; try done; try (intros; exfalso; lia);
    intuition (try discriminate; try lia).
Qed.

(** C3, at a price of zero: the request has every field, a quantity
    of 1 and a price that is not negative, and validation refuses it
    on the [required] rule of [TotalPrice]; the handler answers 400
    and touches neither the tables nor the channel. *)
Theorem C3_zero_total_price_is_rejected :
  let req :=
    CreateOrderRequest.mk "c1" "p1" 1 0%float time.zero "k1" in
  let err :=
    ErrOther "Key: 'CreateOrderRequest.TotalPrice' Error:Field validation for 'TotalPrice' failed on the 'required' tag" in
  (1 ≤ CreateOrderRequest.Quantity req)%Z
  ∧ PrimFloat.leb 0%float (CreateOrderRequest.TotalPrice req) = true
  ∧ binding.validate req = Some err
  ∧ ∀ (J : JSON) (env : service.Env) (path method : string)
      (body : Bytes) (w : World),
      Decode body = inl req →
      handler.CreateOrder env path method body w
      = (Returns (handler.mkResponse handler.StatusBadRequest
                    (handler.H [("error", "Invalid request body");
                                ("details", Error err)])),
         mkWorld (db w) (eventChan w)
           (log w ++ [zap.mk zap.WarnLevel "Invalid request body"
                        [zap.Error err]])).
Proof.
  intros req err. split; [done|]. split; [reflexivity|].
  split; [reflexivity|].
  intros J env path method body w Hdec.
  unfold handler.CreateOrder, binding.ShouldBindJSON. rewrite Hdec.
  change (binding.validate req) with (Some err). reflexivity.
Qed.

(** Bodies that do not decode, and requests that are not [valid], are
    answered 400 without touching the tables or the channel. *)
Lemma invalid_request_is_rejected {J : JSON} (env : service.Env)
    (path method : string) (body : Bytes) (w : World) :
  (∃ e, Decode body = inr e) ∨ (∃ req, Decode body = inl req ∧ ¬ valid req) →
  ∃ (details : string) (entry : zap.Entry),
    handler.CreateOrder env path method body w
    = (Returns (handler.mkResponse handler.StatusBadRequest
                  (handler.H [("error", "Invalid request body");
                              ("details", details)])),
       mkWorld (db w) (eventChan w) (log w ++ [entry])).
Proof.
  unfold handler.CreateOrder, binding.ShouldBindJSON.
  intros [[e ->]|(req & -> & Hinv)]; [unfold_M; eauto|].
  destruct (binding.validate req) as [e|] eqn:Hv.
  - unfold_M; eauto.
  - by apply validate_accepts in Hv.
Qed.
End validation.

Section create.
Context {J : JSON}.

Lemma uuid_String_length (u : uuid.UUID) :
  String.length (uuid.String_ u) = 36.
Proof. reflexivity. Qed.

(** C4. The [binding] value of [OrderTime] is never read, so
    validation does not look at the field, while it refuses a request
    in which any other field has no value.  The order store's create,
    given a draft with no order time, returns the order with
    [OrderTime], [CreatedAt] and [UpdatedAt] at the current time, the
    status "created", the draft's other fields, and the new UUID's
    36 characters as identifier; when the insert succeeds that
    identifier was in no row before and the row is now in the table. *)
Theorem C4_order_time_optional_create_populates
    (Now : time.Time) (New : uuid.UUID) (failure : option error)
    (draft : Order.t) (w : World) :
  Order.OrderTime draft = time.zero →
  let call := repository.CreateOrder Now New failure draft w in
  let o := call.1.1 in
  reflect.Lookup tags.OrderTime "binding" = None
  ∧ (∀ (c p : string) (q : Z) (t : float64) (ot : time.Time) (k : string),
       binding.validate (CreateOrderRequest.mk c p q t ot k)
       = binding.validate (CreateOrderRequest.mk c p q t time.zero k))
  ∧ (∀ req : CreateOrderRequest.t,
       binding.validate req = None →
       CreateOrderRequest.CustomerID req ≠ EmptyString
       ∧ CreateOrderRequest.ProductID req ≠ EmptyString
       ∧ CreateOrderRequest.Quantity req ≠ 0%Z
       ∧ PrimFloat.eqb (CreateOrderRequest.TotalPrice req) 0%float = false
       ∧ CreateOrderRequest.IdempotencyKey req ≠ EmptyString)
  ∧ o = Order.mk (uuid.String_ New)
          (Order.CustomerID draft) (Order.ProductID draft)
          (Order.Quantity draft) (Order.TotalPrice draft)
          "created" Now Now Now
  ∧ Order.ID o ≠ EmptyString
  ∧ String.length (Order.ID o) = 36
  ∧ (call.1.2 = None →
     orders (db w) !! Order.ID o = None
     ∧ orders (db call.2) !! Order.ID o = Some o)
  ∧ (∀ e : error, call.1.2 = Some e → db call.2 = db w).
Proof.
  intros Hzero call o. subst o call.
  rewrite repository_CreateOrder_eq. cbv zeta.
  split; [reflexivity|]. split.
  { intros c p q t ot k.
    unfold binding.validate, validator.Struct, binding.fields.
    cbn [fmap list_fmap CreateOrderRequest.OrderTime].
    by rewrite !validateField_OrderTime. }
  split.
  { intros req (Hc & Hp & Hq & Ht & _ & Hk)%validate_accepts.
    repeat split; try done. lia. }
  destruct (sql.InsertOrder failure _ (db w)) as [err d'] eqn:Hins.
  cbn [fst snd db]. unfold repository.populate at 1 2 3.
  rewrite Hzero. cbn [time.IsZero time.zero Z.eqb Order.ID].
  split; [done|]. split; [done|]. split; [reflexivity|]. split.
  - intros ->. apply InsertOrder_ok in Hins as (_ & Hfresh & ->).
    unfold repository.populate in *. rewrite Hzero in *.
    split; [exact Hfresh|]. cbn [orders]. apply lookup_insert_eq.
  - intros e ->. by apply InsertOrder_error in Hins.
Qed.
End create.

(** ** The worker's loop *)

Section worker.
Context {J : JSON}.

Lemma ready_event s c :
  events.CaseEvent ∈ events.ready s c ↔ channel.buf c ≠ [].
Proof.
  unfold events.ready, channel.can_recv.
  destruct (channel.buf c), (events.ctx_Done s), (events.stopChan_closed s);
    set_solver.
Qed.

Lemma ready_ctx s c :
  events.CaseCtxDone ∈ events.ready s c ↔ events.ctx_Done s = true.
Proof.
  unfold events.ready.
  destruct (channel.can_recv c), (events.ctx_Done s),
    (events.stopChan_closed s); set_solver.
Qed.

Lemma ready_stop s c :
  events.CaseStop ∈ events.ready s c ↔ events.stopChan_closed s = true.
Proof.
  unfold events.ready.
  destruct (channel.can_recv c), (events.ctx_Done s),
    (events.stopChan_closed s); set_solver.
Qed.

Lemma ready_nil s c :
  events.ready s c = [] ↔ channel.buf c = [] ∧ fired s = false.
Proof.
  unfold events.ready, channel.can_recv, fired.
  destruct (channel.buf c), (events.ctx_Done s), (events.stopChan_closed s);
    naive_solver.
Qed.

(** one pass of the loop, by the case its select takes *)
Lemma iteration_cases s w :
  match (events.iteration s w).1 with
  | events.Processed event =>
      ∃ rest,
        channel.buf (eventChan w) = event :: rest
        ∧ channel.buf (eventChan (events.iteration s w).2) = rest
        ∧ log (events.iteration s w).2 = log w ++ processing event
  | events.Return =>
      fired s = true ∧ eventChan (events.iteration s w).2 = eventChan w
  | events.Parked =>
      fired s = false ∧ channel.buf (eventChan w) = []
      ∧ channel.buf (eventChan (events.iteration s w).2) = []
  end.
Proof.
  unfold events.iteration, events.processEvent. unfold_M. cbn beta iota.
  destruct (channel.select _ _ _) as [c|] eqn:Hsel.
  - apply select_ready in Hsel as [Hin|[_ [=]]].
    destruct c.
    + apply ready_event in Hin. unfold channel.recv.
      destruct (channel.buf (eventChan w)) as [|ev rest] eqn:Hbuf; [done|].
      cbn. exists rest. by rewrite <- app_assoc.
    + apply ready_ctx in Hin. cbn. unfold fired. by rewrite Hin.
    + apply ready_stop in Hin. cbn. unfold fired. rewrite Hin.
      by rewrite orb_true_r.
  - destruct (events.ready s (eventChan w)) as [|c0 l] eqn:Hready.
    + apply ready_nil in Hready as [Hbuf Hf]. by cbn.
    + destruct (select_nonempty (c0 :: l) None (events.pick s)) as (c & Hc & _);
        [done|congruence].
Qed.

Lemma iteration_idle_returns s w :
  fired s = true → channel.buf (eventChan w) = [] →
  (events.iteration s w).1 = events.Return.
Proof.
  intros Hf Hbuf. pose proof (iteration_cases s w) as H.
  destruct (events.iteration s w).1 as [ev| |].
  - destruct H as (rest & Hrest & _). congruence.
  - done.
  - destruct H as [H _]. congruence.
Qed.

(** after a signal the runtime is always free to take a return case *)
Lemma iteration_may_return s w :
  fired s = true →
  ∃ pick, (events.iteration (repick s pick) w).1 = events.Return.
Proof.
  intros Hf. unfold fired in Hf.
  exists (if channel.can_recv (eventChan w) then 1 else 0).
  unfold events.iteration, events.ready, repick. unfold_M. cbn.
  destruct (channel.can_recv (eventChan w)), (events.ctx_Done s),
    (events.stopChan_closed s); done.
Qed.

Lemma loop_runs_without_signal schedule w :
  Forall (λ tick, fired (events.signals tick) = false) schedule →
  (events.loop schedule w).1 = events.Running.
Proof.
  revert w. induction schedule as [|tick schedule IH]; intros w Hall; [done|].
  apply Forall_cons in Hall as [Hf Hall].
  cbn [events.loop]. unfold bind at 1 2 3. unfold getChan, putChan at 1.
  set (w1 := mkWorld _ _ _).
  pose proof (iteration_cases (events.signals tick) w1) as H.
  destruct (events.iteration (events.signals tick) w1) as [[ev| |] w2];
    cbn [fst] in *; [by apply IH| |by apply IH].
  destruct H as [H _]. congruence.
Qed.

Lemma arrivals_taken (arrivals : list OrderCreatedEvent.t)
    (c : channel.chan OrderCreatedEvent.t) :
  ∃ took,
    sublist took arrivals
    ∧ channel.buf (foldl events.arrive c arrivals) = channel.buf c ++ took.
Proof.
  revert c. induction arrivals as [|ev arrivals IH]; intros c.
  { exists []. by rewrite app_nil_r. }
  cbn [foldl]. unfold events.arrive at 2.
  destruct (channel.can_send c).
  - destruct (IH (channel.send ev c)) as (took & Hsub & ->).
    exists (ev :: took). split; [by apply sublist_skip|].
    cbn. by rewrite <- app_assoc.
  - destruct (IH c) as (took & Hsub & ->).
    exists took. split; [by apply sublist_cons|done].
Qed.

Lemma loop_cons tick schedule w :
  events.loop (tick :: schedule) w =
    let w1 :=
      mkWorld (db w)
        (foldl events.arrive (eventChan w) (events.arrivals tick)) (log w) in
    match events.iteration (events.signals tick) w1 with
    | (events.Return, w2) => (events.Stopped, w2)
    | (_, w2) => events.loop schedule w2
    end.
Proof.
  cbn [events.loop]. unfold bind, getChan, putChan. cbv zeta.
  by destruct (events.iteration _ _) as [[ev| |] w2].
Qed.

(** one pass of the loop in full: tables, channel and log *)
Lemma iteration_pass s w :
  db (events.iteration s w).2 = db w
  ∧ match (events.iteration s w).1 with
    | events.Processed event =>
        ∃ rest,
          channel.buf (eventChan w) = event :: rest
          ∧ channel.buf (eventChan (events.iteration s w).2) = rest
          ∧ log (events.iteration s w).2 = log w ++ processing event
    | events.Return =>
        eventChan (events.iteration s w).2 = eventChan w
        ∧ (events.ctx_Done s = true
           ∧ log (events.iteration s w).2 = log w ++ [cancelled_line]
           ∨ events.stopChan_closed s = true
             ∧ log (events.iteration s w).2 = log w ++ [stopping_line])
    | events.Parked =>
        fired s = false ∧ channel.buf (eventChan w) = []
        ∧ channel.buf (eventChan (events.iteration s w).2) = []
        ∧ log (events.iteration s w).2 = log w
    end.
Proof.
  split; [apply iteration_db|].
  unfold events.iteration, events.processEvent. unfold_M. cbn beta iota.
  destruct (channel.select _ _ _) as [c|] eqn:Hsel.
  - apply select_ready in Hsel as [Hin|[_ [=]]].
    destruct c.
    + apply ready_event in Hin. unfold channel.recv.
      destruct (channel.buf (eventChan w)) as [|ev rest] eqn:Hbuf; [done|].
      cbn. exists rest. by rewrite <- app_assoc.
    + apply ready_ctx in Hin. cbn. split; [done|]. by left.
    + apply ready_stop in Hin. cbn. split; [done|]. by right.
  - destruct (events.ready s (eventChan w)) as [|c0 l] eqn:Hready.
    + apply ready_nil in Hready as [Hbuf Hf]. by cbn.
    + destruct (select_nonempty (c0 :: l) None (events.pick s)) as (c & Hc & _);
        [done|congruence].
Qed.

Lemma signalled_cons tick schedule :
  signalled (tick :: schedule)
  = if fired (events.signals tick) then tick :: signalled schedule
    else signalled schedule.
Proof.
  unfold signalled. destruct (fired (events.signals tick)) eqn:Hf.
  - by rewrite filter_cons_True.
  - rewrite filter_cons_False; [done|]. by rewrite Hf.
Qed.

Lemma signalled_all schedule :
  Forall (λ tick, fired (events.signals tick) = true) schedule →
  signalled schedule = schedule.
Proof.
  induction 1 as [|tick schedule Hf _ IH]; [done|].
  by rewrite signalled_cons, Hf, IH.
Qed.

(** a run of the loop, pass by pass: the ticks [before] the one at
    which it returned, if it did, each with a pass that took one event
    or found nothing to do; the events it processed and those it
    accepted meanwhile; the end of its log *)
Lemma loop_passes (schedule : list events.Tick) (w : World) :
  ∃ (before : list events.Tick) (done took : list OrderCreatedEvent.t)
    (tail : list zap.Entry),
    done ++ channel.buf (eventChan (events.loop schedule w).2)
      = channel.buf (eventChan w) ++ took
    ∧ db (events.loop schedule w).2 = db w
    ∧ log (events.loop schedule w).2
      = log w ++ concat (processing <$> done) ++ tail
    ∧ length (signalled before) ≤ length done ≤ length before
    ∧ match (events.loop schedule w).1 with
      | events.Running =>
          schedule = before ∧ tail = []
          ∧ sublist took (concat (events.arrivals <$> before))
      | events.Stopped =>
          ∃ (tick : events.Tick) (after : list events.Tick),
            schedule = before ++ tick :: after
            ∧ sublist took (concat (events.arrivals <$> before ++ [tick]))
            ∧ (events.ctx_Done (events.signals tick) = true
               ∧ tail = [cancelled_line]
               ∨ events.stopChan_closed (events.signals tick) = true
                 ∧ tail = [stopping_line])
      end.
Proof.
  revert w. induction schedule as [|tick schedule IH]; intros w.
  { exists [], [], [], []. cbn. rewrite !app_nil_r. repeat split; done. }
  rewrite loop_cons. cbv zeta.
  destruct (arrivals_taken (events.arrivals tick) (eventChan w))
    as (took1 & Hsub1 & Hbuf1).
  set (w1 := mkWorld _ _ _).
  pose proof (iteration_pass (events.signals tick) w1) as [Hdb Hcase].
  destruct (events.iteration (events.signals tick) w1) as [[ev| |] w2];
    cbn [fst snd] in *; cbv beta iota.
  - destruct Hcase as (rest & Hhead & Hrest & Hlog).
    destruct (IH w2)
      as (before & done & took & tail & Hbuf & Hdb' & Hlog' & Hlen & Hend).
    exists (tick :: before), (ev :: done), (took1 ++ took), tail.
    split.
    { cbn. rewrite Hbuf, Hrest. subst w1. cbn [eventChan] in Hhead.
      rewrite Hbuf1 in Hhead. by rewrite app_assoc, Hhead. }
    split; [by rewrite Hdb', Hdb|]. split.
    { rewrite Hlog', Hlog. subst w1. cbn. by rewrite <- !app_assoc. }
    split.
    { rewrite signalled_cons. destruct (fired _); cbn; lia. }
    destruct (events.loop schedule w2).1.
    + destruct Hend as (-> & -> & Hsub). split; [done|]. split; [done|].
      cbn. by apply sublist_app.
    + destruct Hend as (tick' & after & -> & Hsub & Hline).
      exists tick', after. split; [done|]. split; [|done].
      cbn. by apply sublist_app.
  - destruct Hcase as [Hchan Hline].
    assert (Hbuf : channel.buf (eventChan w2)
                   = channel.buf (eventChan w) ++ took1)
      by (rewrite Hchan; subst w1; done).
    assert (Hsub : sublist took1 (concat (events.arrivals <$> [] ++ [tick])))
      by (cbn; by rewrite app_nil_r).
    destruct Hline as [[Hc Hl]|[Hs Hl]].
    + exists [], [], took1, [cancelled_line].
      split; [done|]. split; [done|]. split; [by rewrite Hl|].
      split; [cbn; lia|]. exists tick, schedule. split; [done|].
      split; [done|]. by left.
    + exists [], [], took1, [stopping_line].
      split; [done|]. split; [done|]. split; [by rewrite Hl|].
      split; [cbn; lia|]. exists tick, schedule. split; [done|].
      split; [done|]. by right.
  - destruct Hcase as (Hf & Hempty & Hempty' & Hlog).
    destruct (IH w2)
      as (before & done & took & tail & Hbuf & Hdb' & Hlog' & Hlen & Hend).
    subst w1. cbn [eventChan log] in *.
    rewrite Hbuf1 in Hempty. apply app_eq_nil in Hempty as [Hw ->].
    exists (tick :: before), done, took, tail.
    split; [by rewrite Hbuf, Hempty', Hw|].
    split; [by rewrite Hdb', Hdb|]. split; [by rewrite Hlog', Hlog|].
    split.
    { rewrite signalled_cons, Hf. cbn. lia. }
    destruct (events.loop schedule w2).1.
    + destruct Hend as (-> & -> & Hsub). split; [done|]. split; [done|].
      cbn. by apply sublist_inserts_l.
    + destruct Hend as (tick' & after & -> & Hsub & Hline).
      exists tick', after. split; [done|]. split; [|done].
      cbn. by apply sublist_inserts_l.
Qed.
Lemma loop_stops_when_drained schedule w :
  Forall (λ tick, fired (events.signals tick) = true) schedule →
  length (channel.buf (eventChan w))
    + length (concat (events.arrivals <$> schedule)) < length schedule →
  (events.loop schedule w).1 = events.Stopped.
Proof.
  intros Hall Hlen.
  destruct (loop_passes schedule w)
    as (before & done & took & tail & Hbuf & _ & _ & [Hlow _] & Hend).
  destruct (events.loop schedule w).1; [|done]. exfalso.
  destruct Hend as (-> & _ & Hsub).
  rewrite (signalled_all _ Hall) in Hlow.
  apply sublist_length in Hsub.
  apply (f_equal length) in Hbuf. rewrite !length_app in Hbuf. lia.
Qed.

Lemma arrive_nonempty (c : channel.chan OrderCreatedEvent.t)
    (ev : OrderCreatedEvent.t) :
  1 ≤ channel.cap c →
  channel.buf (events.arrive c ev) ≠ []
  ∧ channel.cap (events.arrive c ev) = channel.cap c.
Proof.
  intros Hcap. unfold events.arrive, channel.can_send.
  destruct (channel.recvq c); cbn.
  { split; [|done]. by destruct (channel.buf c). }
  case_bool_decide as Hlen; cbn.
  - split; [|done]. by destruct (channel.buf c).
  - split; [|done]. destruct (channel.buf c); cbn in *; [lia|done].
Qed.

(** with room for one event in the channel, a worker that is handed
    an event before each pass can take events for ever, whatever
    signal has fired *)
Lemma loop_runs_on (n : nat) (ev : OrderCreatedEvent.t) (w : World) :
  1 ≤ channel.cap (eventChan w) →
  (events.loop
     (replicate n (events.mkTick [ev] (events.mkSignals true true 0))) w).1
  = events.Running.
Proof.
  revert w. induction n as [|n IH]; intros w Hcap; [done|].
  cbn [replicate]. rewrite loop_cons. cbv zeta. cbn [events.arrivals foldl].
  destruct (arrive_nonempty (eventChan w) ev Hcap) as [Hne Hcap'].
  set (w1 := mkWorld _ _ _).
  assert (Hstep : ∃ ev' rest,
    channel.buf (events.arrive (eventChan w) ev) = ev' :: rest
    ∧ events.iteration (events.signals
        (events.mkTick [ev] (events.mkSignals true true 0))) w1
      = (events.Processed ev',
         mkWorld (db w)
           (channel.mk rest (channel.cap (events.arrive (eventChan w) ev))
              false)
           (log w ++ processing ev'))).
  { subst w1. destruct (channel.buf (events.arrive (eventChan w) ev))
      as [|ev' rest] eqn:Hbuf; [done|].
    exists ev', rest. split; [done|].
    unfold events.iteration, events.processEvent, events.ready,
      channel.can_recv, channel.recv. unfold_M. cbn. rewrite Hbuf. cbn.
    by rewrite <- app_assoc. }
  destruct Hstep as (ev' & rest & _ & ->). apply IH. cbn. lia.
Qed.

(** a running worker goes on by one pass of the loop body, on the world
    it has reached and after the arrivals of the tick; a worker that
    has returned does nothing more *)
Lemma loop_snoc (schedule : list events.Tick) (tick : events.Tick)
    (w : World) :
  events.loop (schedule ++ [tick]) w =
    match (events.loop schedule w).1 with
    | events.Stopped => events.loop schedule w
    | events.Running =>
        let w' := (events.loop schedule w).2 in
        let pass :=
          events.iteration (events.signals tick)
            (mkWorld (db w')
               (foldl events.arrive (eventChan w') (events.arrivals tick))
               (log w')) in
        (match pass.1 with
         | events.Return => events.Stopped
         | events.Processed _ | events.Parked => events.Running
         end, pass.2)
    end.
Proof.
  revert w. induction schedule as [|t schedule IH]; intros w.
  { cbn [app]. rewrite loop_cons. cbn [events.loop]. unfold ret.
    cbn [fst snd]. cbv zeta.
    by destruct (events.iteration _ _) as [[ev| |] w2]. }
  cbn [app]. rewrite !loop_cons. cbv zeta.
  destruct (events.iteration (events.signals t) _) as [[ev| |] w2];
    [apply IH|done|apply IH].
Qed.

(** C8. A pass of the worker's loop that completes either takes the
    event at the head of the channel and processes it, that one and
    no other, or returns; it returns only when a shutdown signal has
    fired, and cancelling the context or calling [Stop] each fires
    one on its own.  A signal does not stop the loop by itself: with
    a signal fired the select is free to take the return at every
    pass and must take it when no event is pending, so the loop may
    first process events that are pending or keep arriving.  A run of
    [Start] is made of such passes, one per tick: every further tick
    of a running worker is one pass on the world the run has reached,
    and a worker that has returned does nothing more; over the passes
    before the return the worker processed at most one event per
    pass, one at every pass at which a signal had fired, in the
    order of the channel.  With a signal fired at every pass the loop
    has returned once there are more passes than events pending and
    arriving, and while an event is handed to it before each pass it
    can run on for any number of passes; without a signal it never
    returns. *)
Theorem C8_worker_loop (s : events.Signals) (w : World) :
  match (events.iteration s w).1 with
  | events.Processed event =>
      ∃ rest,
        channel.buf (eventChan w) = event :: rest
        ∧ channel.buf (eventChan (events.iteration s w).2) = rest
        ∧ log (events.iteration s w).2 = log w ++ processing event
  | events.Return =>
      fired s = true ∧ eventChan (events.iteration s w).2 = eventChan w
  | events.Parked =>
      fired s = false ∧ channel.buf (eventChan w) = []
      ∧ channel.buf (eventChan (events.iteration s w).2) = []
  end
  ∧ fired (events.cancel s) = true
  ∧ fired (events.Stop s) = true
  ∧ (events.ctx_Done s = true ∨ events.stopChan_closed s = true →
     (∃ pick, (events.iteration (repick s pick) w).1 = events.Return)
     ∧ (channel.buf (eventChan w) = [] →
        (events.iteration s w).1 = events.Return))
  ∧ (∀ schedule : list events.Tick,
       let run := events.Start schedule w in
       ∃ (before : list events.Tick) (done took : list OrderCreatedEvent.t)
         (tail : list zap.Entry),
         done ++ channel.buf (eventChan run.2)
           = channel.buf (eventChan w) ++ took
         ∧ db run.2 = db w
         ∧ log run.2
           = log w ++ [started_line] ++ concat (processing <$> done) ++ tail
         ∧ length (signalled before) ≤ length done ≤ length before
         ∧ match run.1 with
           | events.Running =>
               schedule = before ∧ tail = []
               ∧ sublist took (concat (events.arrivals <$> before))
           | events.Stopped =>
               ∃ (tick : events.Tick) (after : list events.Tick),
                 schedule = before ++ tick :: after
                 ∧ sublist took
                     (concat (events.arrivals <$> before ++ [tick]))
                 ∧ (events.ctx_Done (events.signals tick) = true
                    ∧ tail = [cancelled_line]
                    ∨ events.stopChan_closed (events.signals tick) = true
                      ∧ tail = [stopping_line])
           end)
  ∧ (∀ (schedule : list events.Tick) (tick : events.Tick),
       let run := events.Start schedule w in
       events.Start (schedule ++ [tick]) w =
         match run.1 with
         | events.Stopped => run
         | events.Running =>
             let pass :=
               events.iteration (events.signals tick)
                 (mkWorld (db run.2)
                    (foldl events.arrive (eventChan run.2)
                       (events.arrivals tick))
                    (log run.2)) in
             (match pass.1 with
              | events.Return => events.Stopped
              | events.Processed _ | events.Parked => events.Running
              end, pass.2)
         end)
  ∧ (∀ schedule : list events.Tick,
       Forall (λ tick, fired (events.signals tick) = true) schedule →
       length (channel.buf (eventChan w))
         + length (concat (events.arrivals <$> schedule))
       < length schedule →
       (events.Start schedule w).1 = events.Stopped)
  ∧ (∀ (n : nat) (ev : OrderCreatedEvent.t),
       1 ≤ channel.cap (eventChan w) →
       (events.Start
          (replicate n (events.mkTick [ev] (events.mkSignals true true 0)))
          w).1 = events.Running)
  ∧ (∀ schedule : list events.Tick,
       Forall (λ tick, fired (events.signals tick) = false) schedule →
       (events.Start schedule w).1 = events.Running).
Proof.
  split; [apply iteration_cases|]. split; [done|].
  split; [apply orb_true_r|]. split; [|split; [|split; [|split; [|split]]]].
  - intros Hsig.
    assert (Hf : fired s = true).
    { unfold fired. destruct Hsig as [-> | ->]; [done|apply orb_true_r]. }
    split; [by apply iteration_may_return|by apply iteration_idle_returns].
  - intros schedule run. subst run. unfold events.Start, bind, logger.
    set (w0 := mkWorld _ _ _).
    destruct (loop_passes schedule w0)
      as (before & done & took & tail & Hbuf & Hdb & Hlog & Hlen & Hend).
    exists before, done, took, tail. split; [done|]. split; [done|].
    split; [|done]. rewrite Hlog. subst w0. cbn. by rewrite <- app_assoc.
  - intros schedule tick run. subst run. unfold events.Start, bind, logger.
    apply loop_snoc.
  - intros schedule Hall Hlen. unfold events.Start, bind, logger.
    by apply loop_stops_when_drained.
  - intros n ev Hcap. unfold events.Start, bind, logger.
    by apply loop_runs_on.
  - intros schedule Hall. unfold events.Start, bind, logger.
    by apply loop_runs_without_signal.
Qed.
End worker.

(** ** The small codec keeps the round-trip law *)

Lemma jsonobject_laws : JSONLaws jsonobject.codec.
Proof.
  constructor. intros o b. cbn [Marshal Unmarshal jsonobject.codec].
  unfold jsonobject.marshalOrder.
  destruct (jsonobject.finite _); [|done].
  destruct (jsonobject.isInt (Order.Quantity o)) eqn:Hint; [|done].
  cbn [andb]. intros [= <-]. unfold jsonobject.unmarshalOrder.
  cbn. rewrite Hint. cbn. by destruct o.
Qed.

(** ** The statements at work on the example run *)

Section examples.
#[local] Existing Instance jsonobject.codec.
#[local] Existing Instance jsonobject_laws.
Import example.

Lemma served_record :
  idempotency_keys (db served) !! (path, method, "k1") = Some record.
Proof. reflexivity. Qed.


Lemma C2_witness :
  service.CreateOrder broken path method request empty
  = (Returns (None, Some (ErrOther "driver: bad connection")),
     (service.CreateOrder broken path method request empty).2)
  ∧ db (service.CreateOrder broken path method request empty).2 = db empty
  ∧ eventChan (service.CreateOrder broken path method request empty).2
    = eventChan empty.
Proof.
  pose (w1 := (service.checkIdempotency broken path method request empty).2).
  pose (call := repository.CreateOrder (service.Now_create broken)
                  (service.New broken) (service.insert_failure broken)
                  (service.draft request) w1).
  destruct (C2_persist_failure_aborts broken path method request empty w1
              call.2 call.1.1 (ErrOther "driver: bad connection"))
    as (Hcall & Hdb & Hchan).
  - reflexivity.
  - reflexivity.
  - rewrite Hcall. cbn [snd]. done.
Defined.

Lemma C4_witness :
  (repository.CreateOrder 1000%Z 0x0123456789abcdef0123456789abcdef%N None
     (service.draft request) empty).1.1 = order
  ∧ orders (db (repository.CreateOrder 1000%Z
                  0x0123456789abcdef0123456789abcdef%N None
                  (service.draft request) empty).2)
      !! "01234567-89ab-cdef-0123-456789abcdef" = Some order.
Proof.
  destruct (C4_order_time_optional_create_populates 1000%Z
              0x0123456789abcdef0123456789abcdef%N None
              (service.draft request) empty)
    as (_ & _ & _ & Ho & _ & _ & Hrow & _).
  - reflexivity.
  - split; [exact Ho|]. destruct Hrow as [_ Hrow]; [reflexivity|].
    rewrite Ho in Hrow. exact Hrow.
Defined.

Lemma C5_witness :
  (repository.GetIdempotencyResponse None (service.NOW late)
     path method "k1" served).1 = (None, Some ErrIdempotencyNotFound)
  ∧ ∃ w' : World,
      service.CreateOrder late path method request served
      = (Returns (Some (created late request), None), w')
      ∧ Order.ID (created late request) ≠ Order.ID order.
Proof.
  destruct (C5_expired_record_is_absent late path method request served
              record) as (_ & Hget & Hnew).
  - apply reachable_CreateOrder, reachable_start.
  - exact served_record.
  - change (600000001001 ≤ 600000001001)%Z. lia.
  - split; [exact Hget|].
    destruct (Hnew (sql.InsertOrder (service.insert_failure late)
                      (created late request) (db served)).2)
      as (w' & Hcall & _ & _ & Hid).
    + reflexivity.
    + exists w'. split; [exact Hcall|]. apply Hid. reflexivity.
Defined.

Lemma C6_witness :
  ∃ w' : World,
    service.CreateOrder soon path method request
      (forget (path, method, "k1") served)
    = (Returns (Some (created soon request), None), w')
    ∧ eventChan w' = eventChan served.
Proof.
  pose (w0 := forget (path, method, "k1") served).
  pose (w1 := (service.checkIdempotency soon path method request w0).2).
  pose (call := repository.CreateOrder (service.Now_create soon)
                  (service.New soon) (service.insert_failure soon)
                  (service.draft request) w1).
  destruct (C6_enqueue_outcomes soon path method request w0) as [_ H].
  destruct (H w1 call.2 call.1.1) as (c & w' & Hcall & _ & Hout).
  - reflexivity.
  - reflexivity.
  - exists w'. split; [exact Hcall|].
    destruct c; cbn [enqueue_outcome] in Hout.
    + destruct Hout as [Hsend _]. discriminate Hsend.
    + apply Hout.
    + apply Hout.
Defined.

Lemma C7_witness :
  ∃ w' : World,
    service.CreateOrder degraded path method request empty
    = (Returns (Some order, None), w')
    ∧ store_warning path method "k1" (ErrOther "driver: bad connection")
      ∈ log w'.
Proof.
  pose (w1 := (service.checkIdempotency degraded path method request
                 empty).2).
  pose (call := repository.CreateOrder (service.Now_create degraded)
                  (service.New degraded) (service.insert_failure degraded)
                  (service.draft request) w1).
  destruct (C7_idempotency_failures_are_not_fatal degraded path method
              request empty) as (_ & _ & H & _).
  destruct (H w1 call.2 order) as (w' & Hcall & _ & Hwarn).
  - reflexivity.
  - reflexivity.
  - exists w'. split; [exact Hcall|]. apply Hwarn. reflexivity.
Defined.

Lemma C9_witness :
  service.CreateOrder soon path method other_request served
  = service.CreateOrder soon path method request served.
Proof.
  destruct (C9_hit_ignores_request_fields first soon path method request
              other_request served record order)
    as (_ & _ & Hsame).
  - reflexivity.
  - exact served_record.
  - reflexivity.
  - reflexivity.
  - reflexivity.
  - reflexivity.
  - reflexivity.
  - exact Hsame.
Defined.

Lemma C10_witness :
  idempotency_keys
    (db (repository.StoreIdempotencyResponse 5000%Z 6000%Z None
           path method "k1" order (10 * time.Minute)%Z served).2)
    !! (path, method, "k1")
  = Some (mkIdempotencyRow (response record) 600000005000%Z 1002%Z).
Proof.
  destruct (C10_upsert_keeps_created_at 5000%Z 6000%Z None path method "k1"
              order (10 * time.Minute)%Z served record)
    as (_ & Hrow & _).
  - exact served_record.
  - destruct (Hrow (response record)) as [_ H].
    + reflexivity.
    + reflexivity.
    + exact H.
Defined.

(** after [Stop] the loop returns once the pending event and the one
    that arrives are out of the way *)
Lemma C8_witness :
  (events.Start
     [events.mkTick [service.eventOf soon order]
        (events.Stop (events.mkSignals false false 0));
      events.mkTick [] (events.Stop (events.mkSignals false false 0));
      events.mkTick [] (events.Stop (events.mkSignals false false 0))]
     served).1 = events.Stopped.
Proof.
  destruct (C8_worker_loop (events.mkSignals false false 0) served)
    as (_ & _ & _ & _ & _ & _ & Hstop & _).
  apply Hstop.
  - repeat constructor.
  - change (1 + 1 < 3). lia.
Defined.

(** with both signals fired the worker still takes events, pass after
    pass, while one is handed to it before each pass *)
Lemma C8_counterexample :
  fired (events.mkSignals true true 0) = true
  ∧ (events.iteration (events.mkSignals true true 0) served).1
    = events.Processed (service.eventOf first order)
  ∧ (events.Start
       (replicate 5
          (events.mkTick [service.eventOf soon order]
             (events.mkSignals true true 0)))
       served).1 = events.Running.
Proof. repeat split; reflexivity. Qed.

(** the zero-price body through the handler: 400 *)
Lemma free_order_is_refused :
  (handler.CreateOrder first path method free_body empty).1
  = Returns (handler.mkResponse handler.StatusBadRequest
      (handler.H [("error", "Invalid request body");
                  ("details", "Key: 'CreateOrderRequest.TotalPrice' Error:Field validation for 'TotalPrice' failed on the 'required' tag")])).
Proof. reflexivity. Qed.

(** the worker drains the served world's channel, then waits *)
Lemma worker_processes_then_parks :
  (events.iteration (events.mkSignals false false 0) served).1
  = events.Processed (service.eventOf first order)
  ∧ (events.iteration (events.mkSignals false false 0)
       (events.iteration (events.mkSignals false false 0) served).2).1
    = events.Parked.
Proof. split; reflexivity. Qed.

(** a pending event can be taken although the context is cancelled *)
Lemma worker_may_process_after_signal :
  (events.iteration (events.mkSignals true false 0) served).1
  = events.Processed (service.eventOf first order)
  ∧ (events.iteration (events.mkSignals true false 1) served).1
    = events.Return.
Proof. split; reflexivity. Qed.
End examples.

(** * Further properties *)

(** ** How a call of [CreateOrder] and a pass of the worker change the world *)

Section steps.
Context {J : JSON}.

(** a call either changes nothing but the log, or inserts the new
    order, runs step 3 on the tables and step 4 on the channel *)
Lemma service_CreateOrder_cases env ep sch req w :
  let call := service.CreateOrder env ep sch req w in
  let key := CreateOrderRequest.IdempotencyKey req in
  ∃ l, log call.2 = log w ++ l ∧
  ((db call.2 = db w ∧ eventChan call.2 = eventChan w
    ∧ ((∃ o, replay env ep sch req w = Some o ∧ call.1 = Returns (Some o, None))
       ∨ (∃ e, replay env ep sch req w = None ∧ call.1 = Returns (None, Some e)
               ∧ (sql.InsertOrder (service.insert_failure env)
                    (created env req) (db w)).1 = Some e)))
   ∨ (∃ d1 c,
        replay env ep sch req w = None
        ∧ sql.InsertOrder (service.insert_failure env) (created env req) (db w)
          = (None, d1)
        ∧ call.1 = Returns (Some (created env req), None)
        ∧ db call.2 = (stored env ep sch key (created env req) d1).2
        ∧ enabled c env (eventChan w)
        ∧ eventChan call.2
          = emitted c (service.eventOf env (created env req)) (eventChan w))).
Proof.
  intros call key. subst call.
  destruct (replay env ep sch req w) as [o|] eqn:Hr.
  { rewrite (service_CreateOrder_hit _ _ _ _ _ _ Hr). cbn [fst snd db eventChan log].
    eexists. split; [done|]. left. eauto 10. }
  destruct (sql.InsertOrder (service.insert_failure env) (created env req)
              (db w)) as [[e|] d1] eqn:Hins.
  { destruct (service_CreateOrder_insert_failed _ _ _ _ _ _ _ Hr Hins)
      as [l ->]. cbn [fst snd db eventChan log].
    eexists. split; [done|]. left. split; [done|]. split; [done|].
    right. exists e. done. }
  destruct (service_CreateOrder_created _ ep sch _ _ _ Hr Hins)
    as (c & l & Hc & -> & _). cbn [fst snd db eventChan log].
  eexists. split; [done|]. right. exists d1, c. done.
Qed.

(** the handler adds log lines to what the service call leaves, when
    it makes one *)
Lemma handler_CreateOrder_world env path method body w :
  ∃ l,
    (handler.CreateOrder env path method body w).2
    = match binding.ShouldBindJSON body with
      | (_, Some _) => mkWorld (db w) (eventChan w) (log w ++ l)
      | (req, None) =>
          let w' := (service.CreateOrder env path method req w).2 in
          mkWorld (db w') (eventChan w') (log w' ++ l)
      end.
Proof.
  unfold handler.CreateOrder.
  destruct (binding.ShouldBindJSON body) as [req [e|]].
  - unfold_M. cbn. eauto.
  - unfold bind at 1.
    destruct (service.CreateOrder env path method req w)
      as [[[[o|] [e|]]| |] w']; unfold_M; cbn [snd]; cbv zeta;
      try (eexists; reflexivity);
      exists []; rewrite app_nil_r; by destruct w'.
Qed.

Lemma service_GetOrderByID_world failure id w :
  ∃ l, (service.GetOrderByID failure id w).2
       = mkWorld (db w) (eventChan w) (log w ++ l).
Proof.
  unfold service.GetOrderByID, repository.GetOrderByID. unfold_M. cbn.
  destruct (sql.SelectOrder failure id (db w)) as [o|e]; cbn.
  - exists []. rewrite app_nil_r. by destruct w.
  - destruct (decide (e = sql_ErrNoRows)); cbn; [|eauto].
    exists []. rewrite app_nil_r. by destruct w.
Qed.

(** to keep a property in every reachable world: it holds at the
    start, survives a call of [CreateOrder] and a pass of the worker,
    and does not read the log *)
Lemma reachable_keeps (P : World → Prop) :
  (∀ size, P (start size)) →
  (∀ env ep sch req w,
     reachable w → P w → P (service.CreateOrder env ep sch req w).2) →
  (∀ s w, reachable w → P w → P (events.iteration s w).2) →
  (∀ w l, P w → P (mkWorld (db w) (eventChan w) (log w ++ l))) →
  ∀ w, reachable w → P w.
Proof.
  intros Hstart Hcall Hpass Hlog w Hw.
  induction Hw as [size|env path method body w Hw IH|env ep sch req w Hw IH
                  |failure id w Hw IH|s w Hw IH].
  - apply Hstart.
  - destruct (handler_CreateOrder_world env path method body w) as [l ->].
    destruct (binding.ShouldBindJSON body) as [req [e|]].
    + by apply Hlog.
    + cbv zeta. apply Hlog. by apply Hcall.
  - by apply Hcall.
  - destruct (service_GetOrderByID_world failure id w) as [l ->].
    by apply Hlog.
  - by apply Hpass.
Qed.
End steps.

(** ** What every reachable world keeps *)

Section kept_facts.
Context {J : JSON}.

Lemma created_row env req :
  row_as_created (Order.ID (created env req)) (created env req).
Proof. done. Qed.

Lemma InsertOrder_keeps failure row d d' id o :
  sql.InsertOrder failure row d = (None, d') →
  orders d !! id = Some o → orders d' !! id = Some o.
Proof.
  intros (_ & Hfresh & ->)%InsertOrder_ok Hid. cbn [orders].
  rewrite lookup_insert_ne; [done|]. intros <-. congruence.
Qed.

Lemma InsertOrder_orders failure row d d' :
  sql.InsertOrder failure row d = (None, d') →
  orders d !! Order.ID row = None
  ∧ orders d' = <[Order.ID row := row]> (orders d)
  ∧ idempotency_keys d' = idempotency_keys d.
Proof. by intros (_ & Hfresh & ->)%InsertOrder_ok. Qed.

Lemma stored_idempotency_keys env ep sch key o d :
  idempotency_keys (stored env ep sch key o d).2 = idempotency_keys d
  ∨ ∃ b createdAt,
      Marshal o = inl b
      ∧ idempotency_keys (stored env ep sch key o d).2
        = <[(ep, sch, key) :=
              mkIdempotencyRow b
                (time.Add (service.Now_validTo env) (10 * time.Minute)%Z)
                createdAt]> (idempotency_keys d).
Proof.
  unfold stored, sql.UpsertIdempotencyResponse.
  destruct (Marshal o) as [b|e]; [|by left].
  destruct (service.upsert_failure env); [by left|]. right. exists b. cbn.
  destruct (idempotency_keys d !! (ep, sch, key)); eauto.
Qed.

Lemma kept_orders_as_created w : reachable w → orders_as_created (db w).
Proof.
  revert w. apply reachable_keeps.
  - intros size id o Hid. cbn in Hid. by rewrite lookup_empty in Hid.
  - intros env ep sch req w _ IH.
    destruct (service_CreateOrder_cases env ep sch req w)
      as (l & _ & [(-> & _)|(d1 & c & _ & Hins & _ & -> & _)]); [done|].
    intros id o. rewrite stored_orders.
    apply InsertOrder_orders in Hins as (_ & -> & _).
    rewrite lookup_insert. case_decide as Hid.
    + intros [= <-]. subst id. apply created_row.
    + apply IH.
  - intros s w _ IH. by rewrite iteration_db.
  - done.
Qed.


Lemma ToOrder_eventOf env o :
  Order.Status o = "created" →
  same_but_rounded (events.ToOrder (service.eventOf env o)) o.
Proof. intros Hs. unfold same_but_rounded. by rewrite Hs. Qed.

Lemma iteration_chan s w :
  channel.cap (eventChan (events.iteration s w).2) = channel.cap (eventChan w)
  ∧ (∃ drop, channel.buf (eventChan w)
             = drop ++ channel.buf (eventChan (events.iteration s w).2))
  ∧ (channel.recvq (eventChan (events.iteration s w).2) = true →
     channel.buf (eventChan (events.iteration s w).2) = []
     ∨ eventChan (events.iteration s w).2 = eventChan w).
Proof.
  unfold events.iteration, events.processEvent. unfold_M. cbn beta iota.
  destruct (channel.select _ _ _) as [[| |]|] eqn:Hsel; cbn.
  - unfold channel.recv.
    destruct (channel.buf (eventChan w)) as [|ev rest] eqn:Hbuf; cbn.
    + rewrite Hbuf. split; [done|]. split; [by exists []|]. by left.
    + split; [done|]. split; [by exists [ev]|]. done.
  - split; [done|]. split; [by exists []|]. by right.
  - split; [done|]. split; [by exists []|]. by right.
  - destruct (events.ready _ _) as [|c0 l] eqn:Hready.
    + apply ready_nil in Hready as [Hbuf _]. rewrite Hbuf.
      split; [done|]. split; [by exists []|]. by left.
    + destruct (select_nonempty (c0 :: l) None (events.pick s))
        as (c & Hc & _); [done|congruence].
Qed.

Lemma kept_events_backed w : reachable w → events_backed w.
Proof.
  revert w. apply reachable_keeps.
  - intros size ev Hev. by apply elem_of_nil in Hev.
  - intros env ep sch req w _ IH.
    destruct (service_CreateOrder_cases env ep sch req w)
      as (l & _ & [(Hdb & Hchan & _)|(d1 & c & _ & Hins & _ & Hdb & _ & Hchan)]).
    { intros ev. rewrite Hdb, Hchan. apply IH. }
    intros ev. rewrite Hdb, Hchan, stored_orders.
    pose proof (InsertOrder_orders _ _ _ _ Hins) as (Hfresh & Hord & _).
    assert (Hold : ev ∈ channel.buf (eventChan w) →
              ∃ o, orders d1 !! OrderCreatedEvent.OrderID ev = Some o
                   ∧ same_but_rounded (events.ToOrder ev) o).
    { intros (o & Ho & Hto)%IH. exists o. split; [|done].
      by eapply InsertOrder_keeps. }
    destruct c; cbn [emitted]; try exact Hold.
    cbn [channel.send channel.buf]. rewrite elem_of_app, list_elem_of_singleton.
    intros [Hev| ->]; [by apply Hold|].
    exists (created env req). split.
    + rewrite Hord. apply lookup_insert_eq.
    + by apply ToOrder_eventOf.
  - intros s w _ IH ev. rewrite iteration_db.
    destruct (iteration_chan s w) as (_ & [drop Hdrop] & _).
    intros Hev. apply IH. rewrite Hdrop. apply elem_of_app. by right.
  - done.
Qed.

End kept_facts.

(** ** Reading orders back *)

Section reading.
Context {J : JSON}.

Lemma handler_GetOrderByID_eq failure id w :
  id ≠ EmptyString →
  ∃ l,
    handler.GetOrderByID failure id w =
      (match sql.SelectOrder failure id (db w) with
       | inl o => handler.mkReply handler.StatusOK (Some (handler.OrderJSON o))
       | inr e =>
           if decide (e = sql_ErrNoRows ∨ e = ErrOrderNotFound)
           then handler.mkReply handler.StatusNotFound
                  (Some (handler.H [("error", "Order not found")]))
           else handler.mkReply handler.StatusInternalServerError
                  (Some (handler.H [("error", "Failed to retrieve order")]))
       end,
       mkWorld (db w) (eventChan w) (log w ++ l)).
Proof.
  intros Hid. unfold handler.GetOrderByID.
  apply String_eqb_empty in Hid. rewrite Hid.
  unfold service.GetOrderByID, repository.GetOrderByID. unfold_M. cbn.
  destruct (sql.SelectOrder failure id (db w)) as [o|e]; cbn.
  { exists []. rewrite app_nil_r. by destruct w. }
  destruct (decide (e = sql_ErrNoRows)) as [->|Hne]; cbn.
  { exists []. rewrite app_nil_r. by destruct w. }
  destruct (decide (e = ErrOrderNotFound)) as [->|Hne']; cbn.
  { rewrite decide_True by by right. eexists. reflexivity. }
  rewrite decide_False by (intros [?|?]; done).
  eexists. by rewrite <- app_assoc.
Qed.

Lemma handler_GetOrderByID_frame failure id w :
  db (handler.GetOrderByID failure id w).2 = db w
  ∧ eventChan (handler.GetOrderByID failure id w).2 = eventChan w.
Proof.
  destruct (decide (id = EmptyString)) as [->|Hid]; [done|].
  by destruct (handler_GetOrderByID_eq failure id w Hid) as [l ->].
Qed.

(** X1. GET /orders/{id}.  The handler never changes a table or the
    channel and always replies with a body.  Without an id it replies
    400.  With one, when the query itself succeeds, it replies 200 with
    the row when there is a row under that id and 404 when there is
    none; when the query fails it replies 500 with a fixed body that
    does not carry the error. *)
Theorem GetOrderByID_replies (failure : option error) (id : string)
    (w : World) :
  let call := handler.GetOrderByID failure id w in
  db call.2 = db w
  ∧ eventChan call.2 = eventChan w
  ∧ handler.payload call.1 ≠ None
  ∧ (id = EmptyString → handler.status call.1 = handler.StatusBadRequest)
  ∧ (id ≠ EmptyString → failure = None →
     match orders (db w) !! id with
     | Some o =>
         call.1 = handler.mkReply handler.StatusOK (Some (handler.OrderJSON o))
     | None =>
         call.1 = handler.mkReply handler.StatusNotFound
                    (Some (handler.H [("error", "Order not found")]))
     end)
  ∧ (id ≠ EmptyString →
     ∀ msg : string, failure = Some (ErrOther msg) →
     call.1 = handler.mkReply handler.StatusInternalServerError
                (Some (handler.H [("error", "Failed to retrieve order")]))).
Proof.
  intros call. subst call.
  destruct (decide (id = EmptyString)) as [->|Hid].
  { cbn. repeat split; done. }
  destruct (handler_GetOrderByID_eq failure id w Hid) as [l ->].
  cbn [fst snd db eventChan]. split; [done|]. split; [done|]. split.
  { destruct (sql.SelectOrder failure id (db w)) as [o|e]; [done|].
    by destruct (decide _). }
  split; [done|]. split.
  - intros _ ->. unfold sql.SelectOrder.
    destruct (orders (db w) !! id); [done|].
    by rewrite decide_True by by left.
  - intros _ msg ->. cbn. by rewrite decide_False by (intros [?|?]; done).
Qed.


(** X3. Rows of [orders] in a reachable world are as the order store
    wrote them: each sits under its own identifier, which has 36
    characters, has status "created", and was never updated. *)
Theorem order_rows_are_as_created (w : World) (id : string) (o : Order.t) :
  reachable w →
  orders (db w) !! id = Some o →
  Order.ID o = id
  ∧ String.length id = 36
  ∧ Order.Status o = "created"
  ∧ Order.UpdatedAt o = Order.CreatedAt o.
Proof. intros Hw Hid. exact (kept_orders_as_created w Hw id o Hid). Qed.
End reading.

(** ** What a call of [CreateOrder] leaves alone *)

Section frames.
Context {J : JSON}.

(** X4. Order rows are never changed or removed: a call leaves every row
    of [orders] in place and adds at most one, under an identifier
    that was free, and only when it returns that order; the worker
    and the reads leave the table as it is. *)
Theorem orders_only_grow
    (env : service.Env) (ep sch : string) (req : CreateOrderRequest.t)
    (w : World) :
  let call := service.CreateOrder env ep sch req w in
  orders (db w) ⊆ orders (db call.2)
  ∧ (orders (db call.2) = orders (db w)
     ∨ ∃ o : Order.t,
         call.1 = Returns (Some o, None)
         ∧ orders (db w) !! Order.ID o = None
         ∧ orders (db call.2) = <[Order.ID o := o]> (orders (db w)))
  ∧ (∀ s : events.Signals, orders (db (events.iteration s w).2) = orders (db w))
  ∧ (∀ (failure : option error) (id : string),
       orders (db (handler.GetOrderByID failure id w).2) = orders (db w)).
Proof.
  intros call. subst call.
  assert (Hcall :
    orders (db (service.CreateOrder env ep sch req w).2) = orders (db w)
    ∨ ∃ o : Order.t,
        (service.CreateOrder env ep sch req w).1 = Returns (Some o, None)
        ∧ orders (db w) !! Order.ID o = None
        ∧ orders (db (service.CreateOrder env ep sch req w).2)
          = <[Order.ID o := o]> (orders (db w))).
  { destruct (service_CreateOrder_cases env ep sch req w)
      as (l & _ & [(-> & _)|(d1 & c & _ & Hins & Hres & -> & _)]);
      [by left|].
    right. exists (created env req). rewrite stored_orders.
    by apply InsertOrder_orders in Hins as (? & -> & _). }
  split; [|split; [exact Hcall|split]].
  - destruct Hcall as [->|(o & _ & Hfresh & ->)]; [done|].
    by apply insert_subseteq.
  - intros s. by rewrite iteration_db.
  - intros failure id.
    by destruct (handler_GetOrderByID_frame failure id w) as [-> _].
Qed.

Lemma idempotency_write_scope env ep sch req w :
  (∀ k' : IdempotencyKey,
     k' ≠ (ep, sch, CreateOrderRequest.IdempotencyKey req) →
     idempotency_keys (db (service.CreateOrder env ep sch req w).2) !! k'
     = idempotency_keys (db w) !! k').
Proof.
  destruct (service_CreateOrder_cases env ep sch req w)
    as (l & _ & [(-> & _)|(d1 & c & _ & Hins & Hres & -> & _)]); [done|].
  apply InsertOrder_orders in Hins as (_ & _ & Hidem).
  destruct (stored_idempotency_keys env ep sch
              (CreateOrderRequest.IdempotencyKey req) (created env req) d1)
    as [->|(b & createdAt & Hm & ->)]; rewrite Hidem; [done|].
  intros k' Hk'. by rewrite lookup_insert_ne.
Qed.

(** X5. A call writes at most the idempotency record of its own key
    triple: the records of every other triple are as before, and its
    own is either as before or holds the encoding of the order the
    call returns, expiring ten minutes after the write. *)
Theorem idempotency_write_is_scoped
    (env : service.Env) (ep sch : string) (req : CreateOrderRequest.t)
    (w : World) :
  let call := service.CreateOrder env ep sch req w in
  let k := (ep, sch, CreateOrderRequest.IdempotencyKey req) in
  (∀ k' : IdempotencyKey,
     k' ≠ k →
     idempotency_keys (db call.2) !! k' = idempotency_keys (db w) !! k')
  ∧ (idempotency_keys (db call.2) !! k = idempotency_keys (db w) !! k
     ∨ ∃ (o : Order.t) (row : IdempotencyRow),
         call.1 = Returns (Some o, None)
         ∧ idempotency_keys (db call.2) !! k = Some row
         ∧ Marshal o = inl (response row)
         ∧ valid_to row
           = (service.Now_validTo env + 600000000000)%Z).
Proof.
  intros call k. subst call k.
  destruct (service_CreateOrder_cases env ep sch req w)
    as (l & _ & [(-> & _)|(d1 & c & _ & Hins & Hres & -> & _)]).
  { split; [done|by left]. }
  apply InsertOrder_orders in Hins as (_ & _ & Hidem).
  destruct (stored_idempotency_keys env ep sch
              (CreateOrderRequest.IdempotencyKey req) (created env req) d1)
    as [->|(b & createdAt & Hm & ->)]; rewrite Hidem.
  { split; [done|by left]. }
  split.
  - intros k' Hk'. by rewrite lookup_insert_ne.
  - right. eexists _, _. split; [exact Hres|].
    rewrite lookup_insert_eq. split; [done|]. done.
Qed.
End frames.

(** ** The event channel of a reachable world *)

Section queue.
Context {J : JSON}.


End queue.

(** ** No order is announced twice *)

Section distinct.
Context {J : JSON}.

(** X7. No order is announced twice: the events waiting in the channel of
    a reachable world carry pairwise different order identifiers. *)
Theorem no_order_is_queued_twice (w : World) :
  reachable w →
  NoDup (OrderCreatedEvent.OrderID <$> channel.buf (eventChan w)).
Proof.
  revert w. apply reachable_keeps.
  - intros size. apply NoDup_nil_2.
  - intros env ep sch req w Hw IH.
    destruct (service_CreateOrder_cases env ep sch req w)
      as (l & _ & [(_ & -> & _)|(d1 & c & _ & Hins & _ & _ & _ & ->)]);
      [done|].
    destruct c; cbn [emitted]; try done.
    cbn [channel.send channel.buf]. rewrite fmap_app. apply NoDup_app.
    split; [done|]. split; [|apply NoDup_singleton].
    intros id Hid Hnew.
    change (id ∈ [Order.ID (created env req)]) in Hnew.
    apply list_elem_of_singleton in Hnew as ->.
    apply list_elem_of_fmap in Hid as (ev & Heq & Hev).
    destruct (kept_events_backed w Hw ev Hev) as (o & Ho & _).
    apply InsertOrder_orders in Hins as (Hfresh & _).
    rewrite <- Heq in Ho. congruence.
  - intros s w _ IH.
    destruct (iteration_chan s w) as (_ & [drop Hdrop] & _).
    rewrite Hdrop, fmap_app in IH. by apply NoDup_app in IH as (_ & _ & ?).
  - done.
Qed.
End distinct.


(** ** POST /orders *)

Section posting.
Context {J : JSON}.

(** X8. POST /orders always answers, with 201, 400 or 500.  It answers 400
    exactly when the body does not decode or the decoded request is
    not valid, and then nothing but the log changes; it answers 500
    with a fixed body exactly when the service call returns an error,
    and then too nothing but the log changes; otherwise it answers 201
    with the order the service call returned. *)
Theorem CreateOrder_responds
    (env : service.Env) (path method : string) (body : Bytes) (w : World) :
  let call := handler.CreateOrder env path method body w in
  ∃ resp : handler.Response,
    call.1 = Returns resp
    ∧ (handler.code resp = handler.StatusBadRequest
       ∧ ((∃ e, Decode body = inr e)
          ∨ ∃ req, Decode body = inl req ∧ ¬ valid req)
       ∧ db call.2 = db w ∧ eventChan call.2 = eventChan w
       ∨ ∃ req : CreateOrderRequest.t,
           Decode body = inl req ∧ valid req
           ∧ (resp = handler.mkResponse handler.StatusInternalServerError
                       (handler.H [("error", "Failed to create order")])
              ∧ (∃ e, (service.CreateOrder env path method req w).1
                      = Returns (None, Some e))
              ∧ db call.2 = db w ∧ eventChan call.2 = eventChan w
              ∨ ∃ o : Order.t,
                  resp = handler.mkResponse handler.StatusCreated
                           (handler.OrderJSON o)
                  ∧ (service.CreateOrder env path method req w).1
                    = Returns (Some o, None))).
Proof.
  intros call. subst call.
  unfold handler.CreateOrder, binding.ShouldBindJSON.
  destruct (Decode body) as [req|e] eqn:Hdec.
  2:{ unfold_M. cbn. eexists. split; [done|]. left. eauto 10. }
  destruct (binding.validate req) as [e|] eqn:Hv.
  { unfold_M. cbn. eexists. split; [done|]. left. split; [done|].
    split; [|done]. right. exists req. split; [done|].
    intros Hvalid%validate_accepts. congruence. }
  apply validate_accepts in Hv.
  pose proof (service_CreateOrder_cases env path method req w) as Hcases.
  cbv zeta in Hcases. unfold bind.
  destruct (service.CreateOrder env path method req w) as [r w'] eqn:Hsc.
  cbn [fst snd] in Hcases.
  destruct Hcases
    as (l & _ & [(Hdb & Hchan & [(o & _ & ->)|(e & _ & -> & _)])
                |(d1 & c & _ & _ & -> & _)]); unfold_M; cbn.
  - eexists. split; [done|]. right. exists req. split; [done|].
    split; [done|]. right. rewrite Hsc. eauto.
  - eexists. split; [done|]. right. exists req. split; [done|].
    split; [done|]. left. rewrite Hsc. eauto 10.
  - eexists. split; [done|]. right. exists req. split; [done|].
    split; [done|]. right. rewrite Hsc. eauto.
Qed.
End posting.

(** ** The idempotency store, written then read *)

Section store_then_get.
Context {J : JSON}.

Lemma GetIdempotencyResponse_row failure NOW ep sch key w row :
  idempotency_keys (db w) !! (ep, sch, key) = Some row →
  (repository.GetIdempotencyResponse failure NOW ep sch key w).1
  = match failure with
    | Some e =>
        (None, Some (if decide (e = sql_ErrNoRows)
                     then ErrIdempotencyNotFound else e))
    | None =>
        if bool_decide (NOW < valid_to row)%Z
        then (Some (response row), None)
        else (None, Some ErrIdempotencyNotFound)
    end.
Proof.
  intros Hrow. unfold repository.GetIdempotencyResponse. unfold_M.
  unfold sql.SelectIdempotencyResponse. rewrite Hrow.
  destruct failure as [e|]; [by destruct (decide (e = sql_ErrNoRows))|].
  by case_bool_decide.
Qed.

(** X9. What [StoreIdempotencyResponse] stored without error,
    [GetIdempotencyResponse] returns for as long as the database's
    clock is before the write time plus the validity, and from then on
    it answers not-found; a validity of zero or less gives a record
    that is never returned once the clock has reached the write time. *)
Theorem stored_response_is_returned_until_expiry
    (Now1 Now2 : time.Time) (failure : option error)
    (ep sch key : string) (order : Order.t)
    (validityDuration : time.Duration) (w w1 : World) :
  repository.StoreIdempotencyResponse Now1 Now2 failure ep sch key order
    validityDuration w = (None, w1) →
  ∃ b : Bytes,
    Marshal order = inl b
    ∧ (∀ NOW : time.Time,
         (NOW < Now1 + validityDuration)%Z →
         (repository.GetIdempotencyResponse None NOW ep sch key w1).1
         = (Some b, None))
    ∧ (∀ NOW : time.Time,
         (Now1 + validityDuration ≤ NOW)%Z →
         (repository.GetIdempotencyResponse None NOW ep sch key w1).1
         = (None, Some ErrIdempotencyNotFound))
    ∧ ((validityDuration ≤ 0)%Z →
       ∀ NOW : time.Time,
         (Now1 ≤ NOW)%Z →
         (repository.GetIdempotencyResponse None NOW ep sch key w1).1
         = (None, Some ErrIdempotencyNotFound)).
Proof.
  intros Hstore.
  assert (∃ b row, Marshal order = inl b
            ∧ idempotency_keys (db w1) !! (ep, sch, key) = Some row
            ∧ response row = b
            ∧ valid_to row = (Now1 + validityDuration)%Z)
    as (b & row & Hm & Hrow & Hresp & Hvalid).
  { revert Hstore. unfold repository.StoreIdempotencyResponse. unfold_M.
    destruct (Marshal order) as [b|e]; [|done]. cbn.
    unfold sql.UpsertIdempotencyResponse.
    destruct failure; [done|]. cbn. intros [= <-]. cbn.
    rewrite lookup_insert_eq. exists b. eexists. split; [done|].
    split; [done|]. by destruct (idempotency_keys (db w) !! (ep, sch, key)). }
  exists b. split; [done|].
  pose proof (λ NOW, GetIdempotencyResponse_row None NOW ep sch key w1 row Hrow)
    as Hget. rewrite Hresp, Hvalid in Hget.
  split; [|split].
  - intros NOW Hlt. rewrite Hget. by rewrite bool_decide_true.
  - intros NOW Hge. rewrite Hget. rewrite bool_decide_false; [done|lia].
  - intros Hd NOW Hge. rewrite Hget. rewrite bool_decide_false; [done|lia].
Qed.
End store_then_get.

(** ** When the same key gives two orders *)

Section duplicates.
Context {J : JSON}.

(** X10. A call that returns an order and leaves no idempotency record
    (its write failed) has created that order; the next call with the
    same key triple is then a miss, and when its insert succeeds it
    returns a second order under another identifier: both rows are in
    the table; when its insert fails it returns the error and changes
    neither the tables nor the channel. *)
Theorem lost_record_gives_second_order
    (env1 env2 : service.Env) (ep sch : string)
    (req1 req2 : CreateOrderRequest.t) (w0 w1 w2 : World)
    (o1 : Order.t) (r2 : outcome (option Order.t * option error)) :
  let k := (ep, sch, CreateOrderRequest.IdempotencyKey req1) in
  CreateOrderRequest.IdempotencyKey req2
    = CreateOrderRequest.IdempotencyKey req1 →
  service.CreateOrder env1 ep sch req1 w0 = (Returns (Some o1, None), w1) →
  idempotency_keys (db w1) !! k = None →
  service.CreateOrder env2 ep sch req2 w1 = (r2, w2) →
  o1 = created env1 req1
  ∧ orders (db w0) !! Order.ID o1 = None
  ∧ (r2 = Returns (Some (created env2 req2), None)
     ∧ Order.ID (created env2 req2) ≠ Order.ID o1
     ∧ orders (db w2) !! Order.ID o1 = Some o1
     ∧ orders (db w2) !! Order.ID (created env2 req2)
       = Some (created env2 req2)
     ∨ ∃ e, r2 = Returns (None, Some e)
            ∧ db w2 = db w1 ∧ eventChan w2 = eventChan w1).
Proof.
  intros k Hkey H1 Hnone H2. subst k.
  pose proof (service_CreateOrder_cases env1 ep sch req1 w0) as Hc1.
  pose proof (service_CreateOrder_cases env2 ep sch req2 w1) as Hc2.
  cbv zeta in Hc1, Hc2. rewrite H1 in Hc1. rewrite H2 in Hc2.
  cbn [fst snd] in Hc1, Hc2.
  destruct Hc1
    as (l1 & _ & [(Hdb & _ & [(o & Hr & _)|(e & _ & Hres & _)])
                 |(d1 & c1 & _ & Hins1 & Hres & Hdb & _)]).
  - exfalso. rewrite Hdb in Hnone. revert Hr.
    unfold replay, lookup, sql.SelectIdempotencyResponse. rewrite Hnone.
    by destruct (service.lookup_failure env1).
  - done.
  - injection Hres as ->.
    pose proof (InsertOrder_orders _ _ _ _ Hins1) as (Hfresh1 & Hord1 & _).
    split; [done|]. split; [done|].
    assert (Hrow1 : orders (db w1) !! Order.ID (created env1 req1)
                    = Some (created env1 req1)).
    { rewrite Hdb, stored_orders, Hord1. apply lookup_insert_eq. }
    rewrite <- Hkey in Hnone.
    pose proof (replay_fresh env2 ep sch req2 w1 Hnone) as Hr2.
    destruct Hc2
      as (l2 & _ & [(Hdb2 & Hchan2 & [(o & Hr & _)|(e & _ & Hres2 & _)])
                   |(d2 & c2 & _ & Hins2 & Hres2 & Hdb2 & _)]);
      [congruence|right; eauto|].
    left. split; [done|].
    pose proof (InsertOrder_orders _ _ _ _ Hins2) as (Hfresh2 & Hord2 & _).
    split; [intros Heq; rewrite Heq in Hfresh2; congruence|].
    rewrite Hdb2, stored_orders, Hord2. split.
    + rewrite lookup_insert_ne; [done|].
      intros Heq. rewrite Heq in Hfresh2. congruence.
    + apply lookup_insert_eq.
Qed.

(** X11. Idempotency keys are scoped by endpoint: a record saved under one
    path and method is not seen by a call that brings the same key on
    another path or method; that call goes on to create. *)
Theorem same_key_on_another_endpoint_creates
    (env1 env2 : service.Env) (ep1 sch1 ep2 sch2 : string)
    (req1 req2 : CreateOrderRequest.t) (w0 : World) :
  let w1 := (service.CreateOrder env1 ep1 sch1 req1 w0).2 in
  (ep2, sch2) ≠ (ep1, sch1) →
  idempotency_keys (db w0)
    !! (ep2, sch2, CreateOrderRequest.IdempotencyKey req2) = None →
  replay env2 ep2 sch2 req2 w1 = None
  ∧ ∀ d2 : Database,
      sql.InsertOrder (service.insert_failure env2) (created env2 req2)
        (db w1) = (None, d2) →
      (service.CreateOrder env2 ep2 sch2 req2 w1).1
      = Returns (Some (created env2 req2), None)
      ∧ orders (db w1) !! Order.ID (created env2 req2) = None.
Proof.
  intros w1 Hne Hnone.
  assert (Hr : replay env2 ep2 sch2 req2 w1 = None).
  { apply replay_fresh. subst w1.
    rewrite idempotency_write_scope; [done|]. intros [= -> -> _]. done. }
  split; [done|]. intros d2 Hins.
  destruct (service_CreateOrder_created _ ep2 sch2 _ _ _ Hr Hins)
    as (c & l & _ & -> & _).
  split; [done|]. by apply InsertOrder_orders in Hins as (? & _).
Qed.
End duplicates.

(** ** The worker keeps the order of the queue *)

Section fifo.
Context {J : JSON}.

(** X12. The worker neither loses, repeats nor reorders events, and never
    touches the tables.  Over any schedule, the events it has
    processed (each leaves its two log lines, in that order of
    processing) followed by the events still in the channel are
    exactly the events the channel held at first followed by those it
    took since, in arrival order; a run that has stopped ends its log
    with one of the two stopping lines. *)
Theorem worker_is_fifo (schedule : list events.Tick) (w : World) :
  let run := events.Start schedule w in
  ∃ (done took : list OrderCreatedEvent.t) (tail : list zap.Entry),
    sublist took (concat (events.arrivals <$> schedule))
    ∧ done ++ channel.buf (eventChan run.2)
      = channel.buf (eventChan w) ++ took
    ∧ log run.2
      = log w ++ [zap.mk zap.InfoLevel "Event worker started" []]
          ++ concat (processing <$> done) ++ tail
    ∧ match run.1 with
      | events.Running => tail = []
      | events.Stopped => tail = [cancelled_line] ∨ tail = [stopping_line]
      end
    ∧ db run.2 = db w.
Proof.
  intros run. subst run. unfold events.Start, bind, logger.
  set (w0 := mkWorld _ _ _).
  destruct (loop_passes schedule w0)
    as (before & done & took & tail & Hbuf & Hdb & Hlog & _ & Hend).
  exists done, took, tail.
  assert (Hsub : sublist took (concat (events.arrivals <$> schedule))
                 ∧ match (events.loop schedule w0).1 with
                   | events.Running => tail = []
                   | events.Stopped =>
                       tail = [cancelled_line] ∨ tail = [stopping_line]
                   end).
  { destruct (events.loop schedule w0).1.
    - by destruct Hend as (-> & -> & Hsub).
    - destruct Hend as (tick & after & -> & Hsub & Hline). split.
      + rewrite (assoc_L (++) before [tick] after : before ++ tick :: after
                   = (before ++ [tick]) ++ after).
        rewrite fmap_app, concat_app. by apply sublist_inserts_r.
      + destruct Hline as [[_ ->]|[_ ->]]; [by left|by right]. }
  destruct Hsub as [Hsub Htail].
  split; [done|]. split; [done|]. split; [|done].
  rewrite Hlog. subst w0. cbn. by rewrite <- app_assoc.
Qed.
End fifo.

(** ** Configuration *)

Section configuration.

Lemma getEnv_Getenv e1 e2 key d :
  config.Getenv e1 key = config.Getenv e2 key →
  config.getEnv e1 key d = config.getEnv e2 key d.
Proof. unfold config.getEnv. by intros ->. Qed.

(** X13. [LoadConfig] reads the eleven variables and nothing else, and
    cannot tell a variable set to the empty string from one that is
    not set: two environments in which [os.Getenv] answers the same
    for those variables give the same configuration. *)
Theorem LoadConfig_reads_its_variables (e1 e2 : gmap string string) :
  (∀ key : string,
     key ∈ config_variables → config.Getenv e1 key = config.Getenv e2 key) →
  config.LoadConfig e1 = config.LoadConfig e2.
Proof.
  intros H. unfold config.LoadConfig, config.getEnvBool, config.getEnvInt.
  rewrite (H "OTEL_ENABLED"), (H "EVENT_QUEUE_SIZE")
    by (unfold config_variables; set_solver).
  f_equal; apply getEnv_Getenv, H; unfold config_variables; set_solver.
Qed.

Lemma digits_nonneg s : ∀ acc n,
  (0 ≤ acc)%Z → strconv.digits acc s = Some n → (0 ≤ n)%Z.
Proof.
  induction s as [|c s IH]; intros acc n Hacc; cbn [strconv.digits]; cbv zeta.
  - by intros [= <-].
  - destruct (_ && _); [|done]. apply IH. lia.
Qed.

Lemma digits_stops_at s1 c s2 : ∀ acc,
  is_digit c = false → strconv.digits acc (s1 +:+ String c s2) = None.
Proof.
  intros acc Hc. revert acc.
  induction s1 as [|c1 s1 IH]; intros acc.
  - change (EmptyString +:+ String c s2) with (String c s2).
    cbn [strconv.digits]; cbv zeta. unfold is_digit in Hc. by rewrite Hc.
  - change (String c1 s1 +:+ String c s2)
      with (String c1 (s1 +:+ String c s2)).
    cbn [strconv.digits]; cbv zeta. destruct (_ && _); [apply IH|done].
Qed.

(** X14. [getEnvInt] answers the default or a value that fits an [int]; it
    answers the default for a value with a byte that is neither a
    decimal digit nor the leading sign (a space, an underscore, a
    letter, a point) and for a lone sign; it does not check the sign
    of what it reads: a minus before the digits of a positive number
    gives the negative number. *)
Theorem getEnvInt_reads_signed_decimals
    (environ : gmap string string) (key : string) (defaultValue : Z) :
  (config.getEnvInt environ key defaultValue = defaultValue
   ∨ (- 2 ^ 63 ≤ config.getEnvInt environ key defaultValue < 2 ^ 63)%Z)
  ∧ (∀ (s1 s2 : string) (c : ascii),
       is_digit c = false →
       (s1 ≠ EmptyString ∨ (c ≠ "-" ∧ c ≠ "+")%char) →
       config.getEnvInt (<[key := s1 +:+ String c s2]> environ) key
         defaultValue = defaultValue)
  ∧ config.getEnvInt (<[key := "-"]> environ) key defaultValue = defaultValue
  ∧ config.getEnvInt (<[key := "+"]> environ) key defaultValue = defaultValue
  ∧ (∀ (c : ascii) (s : string) (n : Z),
       is_digit c = true →
       strconv.Atoi (String c s) = Some n →
       config.getEnvInt (<[key := String c s]> environ) key defaultValue = n
       ∧ config.getEnvInt (<[key := String "+" (String c s)]> environ) key
           defaultValue = n
       ∧ config.getEnvInt (<[key := String "-" (String c s)]> environ) key
           defaultValue = (- n)%Z
       ∧ (0 ≤ n)%Z).
Proof.
  split; [|split; [|split; [|split]]].
  - unfold config.getEnvInt.
    destruct (negb _); [|by left].
    destruct (strconv.Atoi _) as [n|] eqn:Ha; [|by left]. right.
    revert Ha. unfold strconv.Atoi.
    destruct (match config.Getenv environ key with
              | EmptyString => _ | String _ _ => _ end) as [neg body].
    destruct body; [done|]. destruct (strconv.digits 0 _); [|done].
    case_bool_decide; [|done]. by intros [= <-].
  - intros s1 s2 c Hc Hs. unfold config.getEnvInt, config.Getenv.
    rewrite lookup_insert_eq.
    assert (Hat : strconv.Atoi (s1 +:+ String c s2) = None).
    { unfold strconv.Atoi. destruct s1 as [|c1 s1].
      - change (EmptyString +:+ String c s2) with (String c s2).
        destruct Hs as [?|[Hm Hp]]; [done|].
        rewrite (proj2 (Ascii.eqb_neq _ _) Hm), (proj2 (Ascii.eqb_neq _ _) Hp).
        pose proof (digits_stops_at EmptyString c s2 0 Hc) as Hd.
        change (EmptyString +:+ String c s2) with (String c s2) in Hd.
        by rewrite Hd.
      - change (String c1 s1 +:+ String c s2)
          with (String c1 (s1 +:+ String c s2)).
        cbv beta iota.
        destruct (Ascii.eqb c1 "-"); [|destruct (Ascii.eqb c1 "+")].
        + destruct (s1 +:+ String c s2) eqn:Hb; [done|]. rewrite <- Hb.
          by rewrite digits_stops_at.
        + destruct (s1 +:+ String c s2) eqn:Hb; [done|]. rewrite <- Hb.
          by rewrite digits_stops_at.
        + pose proof (digits_stops_at (String c1 s1) c s2 0 Hc) as Hd.
          change (String c1 s1 +:+ String c s2)
            with (String c1 (s1 +:+ String c s2)) in Hd.
          by rewrite Hd. }
    rewrite Hat. by destruct (negb _).
  - unfold config.getEnvInt, config.Getenv. by rewrite lookup_insert_eq.
  - unfold config.getEnvInt, config.Getenv. by rewrite lookup_insert_eq.
  - intros c s n Hc Ha. unfold config.getEnvInt, config.Getenv.
    rewrite !lookup_insert_eq. cbn [String.eqb negb].
    assert (Hsign : Ascii.eqb c "-" = false ∧ Ascii.eqb c "+" = false).
    { unfold is_digit in Hc. split; apply Ascii.eqb_neq; intros ->; done. }
    destruct Hsign as [Hm Hp].
    assert (Hd : strconv.digits 0 (String c s) = Some n
                 ∧ (0 ≤ n < 2 ^ 63)%Z).
    { revert Ha. unfold strconv.Atoi. rewrite Hm, Hp.
      destruct (strconv.digits 0 (String c s)) as [m|] eqn:Hd; [|done].
      case_bool_decide as Hr; [|done]. intros [= <-]. split; [done|].
      pose proof (digits_nonneg _ _ _ (Z.le_refl 0) Hd). lia. }
    destruct Hd as [Hd Hr]. rewrite Ha.
    split; [by destruct (Ascii.eqb _ _)|].
    assert (Hplus : strconv.Atoi (String "+" (String c s)) = Some n).
    { unfold strconv.Atoi. cbn [Ascii.eqb]. cbn. cbn in Hd. rewrite Hd.
      rewrite bool_decide_true; [done|lia]. }
    assert (Hminus : strconv.Atoi (String "-" (String c s)) = Some (- n)%Z).
    { unfold strconv.Atoi. cbn. cbn in Hd. rewrite Hd.
      rewrite bool_decide_true; [done|lia]. }
    rewrite Hplus, Hminus. cbn. split; [done|]. split; [done|lia].
Qed.
End configuration.
(** ** The configuration has no empty field *)

Section configuration_fields.

Lemma getEnv_nonempty environ key d :
  d ≠ EmptyString → config.getEnv environ key d ≠ EmptyString.
Proof.
  intros Hd. unfold config.getEnv. cbv zeta.
  destruct (String.eqb (config.Getenv environ key) EmptyString) eqn:Heq;
    cbn [negb]; [done|].
  by apply String.eqb_neq in Heq.
Qed.

(** X15. Whatever the environment holds, no text field of the
    configuration is empty: a variable that is unset or set to the
    empty string gives the default, and every default is a non-empty
    text. *)
Theorem LoadConfig_has_no_empty_field (environ : gmap string string) :
  let cfg := config.LoadConfig environ in
  Forall (λ field : string, field ≠ EmptyString)
    [config.ServerPort cfg; config.DBHost cfg; config.DBPort cfg;
     config.DBUser cfg; config.DBPassword cfg; config.DBName cfg;
     config.DBSSLMode cfg; config.LogLevel cfg; config.Hostname cfg].
Proof.
  intros cfg. subst cfg. unfold config.LoadConfig.
  cbn [config.ServerPort config.DBHost config.DBPort config.DBUser
       config.DBPassword config.DBName config.DBSSLMode config.LogLevel
       config.Hostname].
  repeat (apply Forall_cons; split; [by apply getEnv_nonempty|]).
  apply Forall_nil_2.
Qed.
End configuration_fields.

(** ** The first version of the idempotency store *)

Section legacy_facts.
Context {J : JSON}.

Lemma lift_eq {A : Type} (m : M A) (s : legacy.Store) :
  legacy.lift m s = ((m (legacy.world s)).1,
                     legacy.mkStore (m (legacy.world s)).2 (legacy.keys s)).
Proof. unfold legacy.lift. by destruct (m (legacy.world s)). Qed.

Lemma InsertKey_cases failure key orderID now s :
  let r := legacy.InsertKey failure key orderID now s in
  (r.2 = legacy.keys s
   ∧ (is_Some r.1 ∨ is_Some (legacy.keys s !! key)))
  ∨ (r = (None, <[key := legacy.mkKeyRow orderID now]> (legacy.keys s))
     ∧ failure = None ∧ legacy.keys s !! key = None
     ∧ is_Some (orders (db (legacy.world s)) !! orderID)).
Proof.
  unfold legacy.InsertKey. destruct failure as [e|]; [left; eauto|].
  destruct (legacy.keys s !! key) as [ik|]; [left; eauto|].
  destruct (orders (db (legacy.world s)) !! orderID) as [o|]; cbn;
    [right|left]; eauto.
Qed.

(** the three ways a call ends *)
Lemma legacy_CreateOrder_cases env req s :
  let call := legacy.CreateOrder env req s in
  let key := CreateOrderRequest.IdempotencyKey req in
  let found := legacy.SelectOrderByKey (service.lookup_failure env) key s in
  let w := legacy.world s in
  let w' := legacy.world call.2 in
  ∃ l, log w' = log w ++ l
  ∧ idempotency_keys (db w') = idempotency_keys (db w)
  ∧ ((∃ o, found = inl o ∧ call.1 = Returns (Some o, None)
           ∧ db w' = db w ∧ eventChan w' = eventChan w
           ∧ legacy.keys call.2 = legacy.keys s)
     ∨ (∃ e0, found = inr e0)
       ∧ ((∃ e, (sql.InsertOrder (service.insert_failure env)
                   (created env req) (db w)).1 = Some e
                ∧ call.1 = Returns (None, Some e)
                ∧ db w' = db w ∧ eventChan w' = eventChan w
                ∧ legacy.keys call.2 = legacy.keys s)
          ∨ (∃ d1 c,
               sql.InsertOrder (service.insert_failure env)
                 (created env req) (db w) = (None, d1)
               ∧ call.1 = Returns (Some (created env req), None)
               ∧ db w' = d1
               ∧ legacy.keys call.2
                 = (legacy.InsertKey (service.upsert_failure env) key
                      (Order.ID (created env req)) (service.Now_createdAt env)
                      (legacy.mkStore (mkWorld d1 (eventChan w) (log w))
                         (legacy.keys s))).2
               ∧ enabled c env (eventChan w)
               ∧ eventChan w'
                 = emitted c (service.eventOf env (created env req))
                     (eventChan w)))).
Proof.
  intros call key found w w'. subst call found w w'.
  unfold legacy.CreateOrder, legacy.GetOrderByIdempotencyKey. fold key.
  destruct (legacy.SelectOrderByKey (service.lookup_failure env) key s)
    as [o|e0] eqn:Hsel.
  { rewrite lift_eq. unfold_M. cbn. eexists. split; [done|]. split; [done|].
    left. eauto 10. }
  set (miss := λ s1 : legacy.Store,
    let (r, s2) :=
      legacy.lift (repository.CreateOrder (service.Now_create env)
                     (service.New env) (service.insert_failure env)
                     (service.draft req)) s1 in
    let (order, err) := r in
    match err with
    | Some e => (Returns (None, Some e), s2)
    | None =>
        let (err0, s3) :=
          legacy.StoreIdempotencyKey (service.Now_createdAt env)
            (service.upsert_failure env) key (Order.ID order) s2 in
        let (_, s4) :=
          match err0 with
          | Some e =>
              legacy.lift
                (logger zap.WarnLevel "Failed to store idempotency key"
                   [zap.Error e; zap.String_ "idempotency_key" key]) s3
          | None => (tt, s3)
          end in
        let (sent, s5) :=
          legacy.lift (service.emit env order (service.eventOf env order)) s4 in
        match sent with
        | Returns _ => (Returns (Some order, None), s5)
        | Blocks => (Blocks, s5)
        | Panics => (Panics, s5)
        end
    end).
  assert (Hmiss : ∀ (l0 : list zap.Entry),
    let s1 := legacy.mkStore
                (mkWorld (db (legacy.world s)) (eventChan (legacy.world s))
                   (log (legacy.world s) ++ l0)) (legacy.keys s) in
    ∃ l, log (legacy.world (miss s1).2) = log (legacy.world s) ++ l
    ∧ idempotency_keys (db (legacy.world (miss s1).2))
      = idempotency_keys (db (legacy.world s))
    ∧ ((∃ e, (sql.InsertOrder (service.insert_failure env)
                (created env req) (db (legacy.world s))).1 = Some e
             ∧ (miss s1).1 = Returns (None, Some e)
             ∧ db (legacy.world (miss s1).2) = db (legacy.world s)
             ∧ eventChan (legacy.world (miss s1).2)
               = eventChan (legacy.world s)
             ∧ legacy.keys (miss s1).2 = legacy.keys s)
       ∨ (∃ d1 c,
            sql.InsertOrder (service.insert_failure env)
              (created env req) (db (legacy.world s)) = (None, d1)
            ∧ (miss s1).1 = Returns (Some (created env req), None)
            ∧ db (legacy.world (miss s1).2) = d1
            ∧ legacy.keys (miss s1).2
              = (legacy.InsertKey (service.upsert_failure env) key
                   (Order.ID (created env req)) (service.Now_createdAt env)
                   (legacy.mkStore
                      (mkWorld d1 (eventChan (legacy.world s))
                         (log (legacy.world s)))
                      (legacy.keys s))).2
            ∧ enabled c env (eventChan (legacy.world s))
            ∧ eventChan (legacy.world (miss s1).2)
              = emitted c (service.eventOf env (created env req))
                  (eventChan (legacy.world s))))).
  { intros l0 s1. subst s1 miss. cbv beta.
    rewrite lift_eq, repository_CreateOrder_eq.
    cbn [legacy.world legacy.keys db eventChan log]. fold (created env req).
    cbv zeta.
    destruct (sql.InsertOrder (service.insert_failure env) (created env req)
                (db (legacy.world s))) as [[e|] d1] eqn:Hins;
      cbn [fst snd legacy.world legacy.keys db eventChan log].
    { rewrite (InsertOrder_error _ _ _ _ _ Hins).
      eexists. split; [by rewrite <- app_assoc|]. split; [done|].
      left. exists e. done. }
    pose proof (InsertOrder_ok _ _ _ _ Hins) as (_ & _ & Hd1).
    unfold legacy.StoreIdempotencyKey.
    match goal with
    | |- context [legacy.InsertKey ?f ?k ?i ?n ?s2] =>
        assert (Hik : legacy.InsertKey f k i n s2
                = legacy.InsertKey f k i n
                    (legacy.mkStore
                       (mkWorld d1 (eventChan (legacy.world s))
                          (log (legacy.world s))) (legacy.keys s)))
          by done;
        rewrite Hik; clear Hik
    end.
    destruct (legacy.InsertKey _ _ _ _ _) as [[e|] keys'] eqn:Hkey.
    - assert (keys' = legacy.keys s) as ->.
      { revert Hkey. unfold legacy.InsertKey.
        cbn [legacy.world legacy.keys db].
        destruct (service.upsert_failure env); [congruence|].
        destruct (legacy.keys s !! key); [congruence|].
        destruct (orders d1 !! _); congruence. }
      unfold_M.
      repeat (rewrite lift_eq;
              cbn [fst snd legacy.world legacy.keys db eventChan log]).
      match goal with
      | |- context [service.emit env ?o ?ev ?w4] =>
          destruct (emit_eq env o ev w4) as (c & Hc & He)
      end.
      rewrite He. cbn [fst snd legacy.world legacy.keys db eventChan log] in *.
      eexists. split; [by rewrite <- !app_assoc|].
      split; [by rewrite Hd1|]. right. exists d1, c. by rewrite Hkey.
    - repeat (rewrite lift_eq;
              cbn [fst snd legacy.world legacy.keys db eventChan log]).
      match goal with
      | |- context [service.emit env ?o ?ev ?w4] =>
          destruct (emit_eq env o ev w4) as (c & Hc & He)
      end.
      rewrite He. cbn [fst snd legacy.world legacy.keys db eventChan log] in *.
      eexists. split; [by rewrite <- !app_assoc|].
      split; [by rewrite Hd1|]. right. exists d1, c. by rewrite Hkey. }
  destruct (decide (e0 = sql_ErrNoRows)) as [->|Hne].
  - destruct (Hmiss []) as (l & Hlog & Hidem & Hcase).
    cbv zeta in Hlog, Hidem, Hcase. rewrite app_nil_r in Hlog, Hidem, Hcase.
    assert (Hs : legacy.mkStore
                   (mkWorld (db (legacy.world s)) (eventChan (legacy.world s))
                      (log (legacy.world s))) (legacy.keys s) = s).
    { destruct s as [[? ? ?] ?]. done. }
    rewrite Hs in Hlog, Hidem, Hcase.
    exists l. split; [exact Hlog|]. split; [exact Hidem|].
    right. split; [eauto|]. exact Hcase.
  - rewrite lift_eq. unfold_M. cbn [fst snd].
    destruct (Hmiss [zap.mk zap.ErrorLevel
                       "Failed to get order by idempotency key"
                       [zap.Error e0; zap.String_ "idempotency_key" key]])
      as (l & Hlog & Hidem & Hcase).
    exists l. split; [exact Hlog|]. split; [exact Hidem|].
    right. split; [eauto|]. exact Hcase.
Qed.
End legacy_facts.

Section legacy_properties.
Context {J : JSON}.

Lemma legacy_CreateOrder_hit env req s o :
  legacy.SelectOrderByKey (service.lookup_failure env)
    (CreateOrderRequest.IdempotencyKey req) s = inl o →
  legacy.CreateOrder env req s =
    (Returns (Some o, None),
     legacy.mkStore
       (mkWorld (db (legacy.world s)) (eventChan (legacy.world s))
          (log (legacy.world s)
             ++ [exists_entry (CreateOrderRequest.IdempotencyKey req) o]))
       (legacy.keys s)).
Proof.
  intros Hsel.
  unfold legacy.CreateOrder, legacy.GetOrderByIdempotencyKey.
  rewrite Hsel, lift_eq. by unfold_M.
Qed.

Lemma legacy_created_keys env req s d1 :
  sql.InsertOrder (service.insert_failure env) (created env req)
    (db (legacy.world s)) = (None, d1) →
  let key := CreateOrderRequest.IdempotencyKey req in
  let r := legacy.InsertKey (service.upsert_failure env) key
             (Order.ID (created env req)) (service.Now_createdAt env)
             (legacy.mkStore
                (mkWorld d1 (eventChan (legacy.world s))
                   (log (legacy.world s))) (legacy.keys s)) in
  r.2 = match service.upsert_failure env, legacy.keys s !! key with
        | None, None =>
            <[key := legacy.mkKeyRow (Order.ID (created env req))
                       (service.Now_createdAt env)]> (legacy.keys s)
        | _, _ => legacy.keys s
        end.
Proof.
  intros (_ & _ & ->)%InsertOrder_ok key r. subst r.
  unfold legacy.InsertKey. cbn [legacy.world legacy.keys db orders].
  destruct (service.upsert_failure env); [done|].
  destruct (legacy.keys s !! key); [done|].
  by rewrite lookup_insert_eq.
Qed.




(** X17. A key is bound once.  A call leaves every row of the first
    [idempotency_keys] as it is and adds at most the row of its own
    key, which then names the order the call created and returns; no
    order row is changed or removed; and when every key named an
    order row before the call, every key does after it. *)
Theorem legacy_key_is_bound_once
    (env : service.Env) (req : CreateOrderRequest.t) (s : legacy.Store) :
  let call := legacy.CreateOrder env req s in
  let key := CreateOrderRequest.IdempotencyKey req in
  (∀ (k : string) (ik : legacy.KeyRow),
     legacy.keys s !! k = Some ik → legacy.keys call.2 !! k = Some ik)
  ∧ (∀ k : string, k ≠ key → legacy.keys call.2 !! k = legacy.keys s !! k)
  ∧ (∀ ik : legacy.KeyRow,
       legacy.keys s !! key = None →
       legacy.keys call.2 !! key = Some ik →
       call.1 = Returns (Some (created env req), None)
       ∧ ik = legacy.mkKeyRow (Order.ID (created env req))
                (service.Now_createdAt env)
       ∧ orders (db (legacy.world call.2)) !! legacy.order_id ik
         = Some (created env req))
  ∧ orders (db (legacy.world s)) ⊆ orders (db (legacy.world call.2))
  ∧ (keys_backed s → keys_backed call.2).
Proof.
  intros call key. subst call. unfold keys_backed.
  pose proof (legacy_CreateOrder_cases env req s) as Hc. cbv zeta in Hc.
  fold key in Hc.
  destruct (legacy.CreateOrder env req s) as [r s'] eqn:Hcall.
  cbn [fst snd] in *.
  destruct Hc as (l & _ & _ & [(o & _ & _ & Hdb & _ & Hkeys)
                 |(_ & [(e & _ & _ & Hdb & _ & Hkeys)
                 |(d1 & c & Hins & Hres & Hdb & Hkeys & _)])]).
  1, 2: split; [by rewrite Hkeys|]; split; [by rewrite Hkeys|];
        split; [rewrite Hkeys; intros; congruence|];
        split; [by rewrite Hdb|];
        intros Hb k ik; rewrite Hkeys, Hdb; apply Hb.
  pose proof (legacy_created_keys env req s d1 Hins) as Hk.
  cbv zeta in Hk. fold key in Hk. rewrite Hk in Hkeys. clear Hk.
  pose proof (InsertOrder_orders _ _ _ _ Hins) as (Hfresh & Hord & _).
  rewrite Hdb, Hord, Hkeys.
  assert (Hsub : orders (db (legacy.world s))
                 ⊆ <[Order.ID (created env req) := created env req]>
                     (orders (db (legacy.world s))))
    by by apply insert_subseteq.
  destruct (service.upsert_failure env) as [e|].
  { split; [done|]. split; [done|]. split; [intros; congruence|].
    split; [done|]. intros Hb k ik Hk. destruct (Hb k ik Hk) as [o Ho]. exists o.
    by eapply lookup_weaken. }
  destruct (legacy.keys s !! key) as [ik0|] eqn:Hold.
  { split; [done|]. split; [done|]. split; [intros; congruence|].
    split; [done|]. intros Hb k ik Hk. destruct (Hb k ik Hk) as [o Ho]. exists o.
    by eapply lookup_weaken. }
  split; [|split; [|split; [|split]]].
  - intros k ik Hk. rewrite lookup_insert_ne; [done|]. congruence.
  - intros k Hk. by rewrite lookup_insert_ne.
  - intros ik _. rewrite lookup_insert_eq. intros [= <-].
    split; [done|]. split; [done|]. cbn. apply lookup_insert_eq.
  - done.
  - intros Hb k ik. rewrite lookup_insert. case_decide as Hk.
    + intros [= <-]. cbn. rewrite lookup_insert_eq. eauto.
    + intros Hkk. destruct (Hb k ik Hkk) as [o Ho]. exists o.
      by eapply lookup_weaken.
Qed.

(** X18. A lookup that fails makes a duplicate that is never replayed.
    When the key already names an order and the join fails, the call
    goes on to create: it returns a second order, under another
    identifier, and leaves the key on the first; the next call with
    that key whose lookup works returns the first order, not the one
    this call returned. *)
Theorem legacy_failed_lookup_duplicates
    (env env' : service.Env) (req req' : CreateOrderRequest.t)
    (s s' : legacy.Store) (ik : legacy.KeyRow) (o1 o2 : Order.t)
    (e : error) :
  legacy.keys s !! CreateOrderRequest.IdempotencyKey req = Some ik →
  orders (db (legacy.world s)) !! legacy.order_id ik = Some o1 →
  service.lookup_failure env = Some e →
  legacy.CreateOrder env req s = (Returns (Some o2, None), s') →
  CreateOrderRequest.IdempotencyKey req'
    = CreateOrderRequest.IdempotencyKey req →
  service.lookup_failure env' = None →
  o2 = created env req
  ∧ Order.ID o2 ≠ legacy.order_id ik
  ∧ orders (db (legacy.world s')) !! Order.ID o2 = Some o2
  ∧ orders (db (legacy.world s')) !! legacy.order_id ik = Some o1
  ∧ legacy.keys s' = legacy.keys s
  ∧ (legacy.CreateOrder env' req' s').1 = Returns (Some o1, None).
Proof.
  intros Hik Ho1 Hfail Hcall Hkey Hlook.
  pose proof (legacy_CreateOrder_cases env req s) as Hc.
  cbv zeta in Hc. rewrite Hcall in Hc. cbn [fst snd] in Hc.
  destruct Hc as (l & _ & _ & [(o & Hsel & _)|(_ & [(e1 & _ & Hres & _)
                 |(d1 & c & Hins & Hres & Hdb & Hkeys & _)])]).
  { revert Hsel. unfold legacy.SelectOrderByKey. by rewrite Hfail. }
  { done. }
  injection Hres as ->. split; [done|].
  pose proof (legacy_created_keys env req s d1 Hins) as Hk.
  cbv zeta in Hk. rewrite Hk, Hik in Hkeys.
  assert (Hkeys' : legacy.keys s' = legacy.keys s)
    by (rewrite Hkeys; by destruct (service.upsert_failure env)).
  pose proof (InsertOrder_orders _ _ _ _ Hins) as (Hfresh & Hord & _).
  assert (Hne : Order.ID (created env req) ≠ legacy.order_id ik)
    by (intros Heq; rewrite Heq in Hfresh; congruence).
  assert (Ho1' : orders (db (legacy.world s')) !! legacy.order_id ik = Some o1)
    by (rewrite Hdb, Hord; by rewrite lookup_insert_ne).
  split; [done|]. split; [rewrite Hdb, Hord; apply lookup_insert_eq|].
  split; [done|]. split; [done|].
  rewrite (legacy_CreateOrder_hit env' req' s' o1); [done|].
  unfold legacy.SelectOrderByKey. by rewrite Hlook, Hkey, Hkeys', Hik, Ho1'.
Qed.
End legacy_properties.

(** ** The further statements at work on the example run *)

Section more_examples.
#[local] Existing Instance jsonobject.codec.
#[local] Existing Instance jsonobject_laws.
Import example example_more.


Lemma order_rows_are_as_created_witness :
  Order.ID order = "01234567-89ab-cdef-0123-456789abcdef"
  ∧ String.length "01234567-89ab-cdef-0123-456789abcdef" = 36
  ∧ Order.Status order = "created"
  ∧ Order.UpdatedAt order = Order.CreatedAt order.
Proof.
  apply (order_rows_are_as_created served
           "01234567-89ab-cdef-0123-456789abcdef" order).
  - apply reachable_CreateOrder, reachable_start.
  - reflexivity.
Defined.


Lemma no_order_is_queued_twice_witness :
  NoDup (OrderCreatedEvent.OrderID <$> channel.buf (eventChan served)).
Proof.
  apply (no_order_is_queued_twice served).
  apply reachable_CreateOrder, reachable_start.
Defined.

Lemma stored_response_is_returned_until_expiry_witness :
  (repository.GetIdempotencyResponse None 600000004999%Z path method "k1"
     (repository.StoreIdempotencyResponse 5000%Z 6000%Z None path method
        "k1" order (10 * time.Minute)%Z served).2).1
  = (Some (response record), None)
  ∧ (repository.GetIdempotencyResponse None 600000005000%Z path method "k1"
       (repository.StoreIdempotencyResponse 5000%Z 6000%Z None path method
          "k1" order (10 * time.Minute)%Z served).2).1
    = (None, Some ErrIdempotencyNotFound).
Proof.
  destruct (stored_response_is_returned_until_expiry 5000%Z 6000%Z None
              path method "k1" order (10 * time.Minute)%Z served
              (repository.StoreIdempotencyResponse 5000%Z 6000%Z None path
                 method "k1" order (10 * time.Minute)%Z served).2)
    as (b & Hm & Hbefore & Hafter & _).
  - reflexivity.
  - injection Hm as <-. split.
    + apply Hbefore. change (600000004999 < 600000005000)%Z. lia.
    + apply Hafter. change (600000005000 ≤ 600000005000)%Z. lia.
Defined.

Lemma lost_record_gives_second_order_witness :
  orders (db (service.CreateOrder soon path method other_request
                unrecorded).2) !! Order.ID order = Some order
  ∧ orders (db (service.CreateOrder soon path method other_request
                  unrecorded).2) !! Order.ID (created soon other_request)
    = Some (created soon other_request).
Proof.
  destruct (lost_record_gives_second_order degraded soon path method
              request other_request empty unrecorded
              (service.CreateOrder soon path method other_request
                 unrecorded).2
              order
              (service.CreateOrder soon path method other_request
                 unrecorded).1)
    as (_ & _ & [(_ & _ & H1 & H2)|(e & He & _)]).
  - reflexivity.
  - reflexivity.
  - reflexivity.
  - reflexivity.
  - split; [exact H1|exact H2].
  - discriminate He.
Defined.

Lemma same_key_on_another_endpoint_creates_witness :
  (service.CreateOrder soon "/v2/orders" method other_request served).1
  = Returns (Some (created soon other_request), None).
Proof.
  destruct (same_key_on_another_endpoint_creates first soon path method
              "/v2/orders" method request other_request empty)
    as [_ H].
  - discriminate.
  - reflexivity.
  - destruct (H (sql.InsertOrder (service.insert_failure soon)
                   (created soon other_request) (db served)).2) as [Hc _].
    + reflexivity.
    + exact Hc.
Defined.

Lemma LoadConfig_reads_its_variables_witness :
  config.LoadConfig environ = config.LoadConfig ∅.
Proof.
  apply (LoadConfig_reads_its_variables environ ∅).
  intros key Hin. unfold config_variables in Hin.
  repeat (apply elem_of_cons in Hin as [->|Hin]; [reflexivity|]).
  by apply elem_of_nil in Hin.
Defined.


Lemma legacy_failed_lookup_duplicates_witness :
  (legacy.CreateOrder blind other_request legacy_served).1
  = Returns (Some (created blind other_request), None)
  ∧ (legacy.CreateOrder late request
       (legacy.CreateOrder blind other_request legacy_served).2).1
    = Returns (Some order, None).
Proof.
  destruct (legacy_failed_lookup_duplicates blind late other_request request
              legacy_served
              (legacy.CreateOrder blind other_request legacy_served).2
              legacy_row order (created blind other_request)
              (ErrOther "driver: bad connection"))
    as (_ & _ & _ & _ & _ & H).
  - reflexivity.
  - reflexivity.
  - reflexivity.
  - reflexivity.
  - reflexivity.
  - reflexivity.
  - split; [reflexivity|exact H].
Defined.
End more_examples.
